(** * hamster-bridge: the change-detection and notification loop

    A shallow embedding of [hamster_bridge/bridge.py] (class
    [HamsterBridge]): the listener registry ([add_listener]), the fact
    cache, its eviction ([cleanup_extraneous_facts_cache_entries]) and the
    per-tick diff ([process]).

    Python objects that the bridge only calls into (the listeners and the
    hamster storage) are kept abstract: a listener is a value with
    decidable identity, and its two callbacks are functions on an external
    [World] that may raise. *)

From stdpp Require Import gmap strings list fin_maps.
From Stdlib Require Import ZArith.

Local Open Scope Z_scope.

(** ** Facts *)

(** Modelled from the spec: [hamster.lib.fact.Fact] is imported by
    [bridge.py] and is not part of the sources.  The bridge reads only
    [fact.id] and [fact.end_time] and compares facts with [==]; the
    remaining fields are the descriptive ones of the data model.  Times are
    timestamps; an absent [end_time] is Python's [None]. *)
Record Fact := mkFact {
  id : Z;
  activity : string;
  category : string;
  description : string;
  tags : list string;
  start_time : Z;
  end_time : option Z;
}.

#[global] Instance Fact_eq_dec : EqDecision Fact.
Proof. solve_decision. Defined.

(** Truthiness of [fact.end_time]: [None] is falsy, a datetime is truthy
    whatever its value. *)
Definition truthy {A} (o : option A) : bool :=
  match o with Some _ => true | None => false end.

(** ** Listener callbacks and the call trace *)

Inductive callback := on_fact_started | on_fact_stopped.

#[global] Instance callback_eq_dec : EqDecision callback.
Proof. solve_decision. Defined.

Inductive result (A : Type) :=
  | Return (a : A)
  | Raise.
Arguments Return {A} a.
Arguments Raise {A}.

Section Bridge.

Context {Listener : Type} `{EqDecision Listener}.
Context {World : Type}.

(** [invoke l cb fact w] is the call [l.cb(fact)] made in the external
    world [w]: it returns or raises, and leaves a new world behind. *)
Variable invoke : Listener → callback → Fact → World → result unit * World.

(** One listener call as the bridge made it, with how it ended. *)
Record event := Event {
  ev_listener : Listener;
  ev_callback : callback;
  ev_fact : Fact;
  ev_raised : bool;
}.

(** The attributes [__init__] sets on the bridge. *)
Record HamsterBridge := mkBridge {
  _listeners : list Listener;
  save_passwords : bool;
  _facts_cache : gmap Z Fact;
}.

Definition __init__ (save : bool) : HamsterBridge :=
  {| _listeners := []; save_passwords := save; _facts_cache := ∅ |}.

(** [if listener not in self._listeners: self._listeners.append(listener)] *)
Definition add_listener (listener : Listener) (self : HamsterBridge) : HamsterBridge :=
  if decide (listener ∈ _listeners self) then self
  else {| _listeners := _listeners self ++ [listener];
          save_passwords := save_passwords self;
          _facts_cache := _facts_cache self |}.

(** ** A state and exception monad with a call trace *)

Record state := mkState {
  self : HamsterBridge;
  world : World;
}.

Record run (A : Type) := Run {
  outcome : result A;
  final : state;
  calls : list event;
}.
Arguments Run {A} _ _ _.
Arguments outcome {A} _.
Arguments final {A} _.
Arguments calls {A} _.

Definition M (A : Type) : Type := state → run A.

Definition ret {A} (a : A) : M A := λ s, Run (Return a) s [].

Definition bind {A B} (m : M A) (k : A → M B) : M B := λ s,
  let r := m s in
  match outcome r with
  | Return a =>
      let r' := k a (final r) in
      Run (outcome r') (final r') (calls r ++ calls r')
  | Raise => Run Raise (final r) (calls r)
  end.

#[local] Instance M_ret : MRet M := @ret.
#[local] Instance M_bind : MBind M := λ A B k m, bind m k.

(** [for x in xs: body(x)] *)
Fixpoint for_each {A} (xs : list A) (body : A → M unit) : M unit :=
  match xs with
  | [] => ret tt
  | x :: xs' => body x ;; for_each xs' body
  end.

Definition when (b : bool) (m : M unit) : M unit :=
  if b then m else ret tt.

Definition set_cache (c : gmap Z Fact) (b : HamsterBridge) : HamsterBridge :=
  {| _listeners := _listeners b; save_passwords := save_passwords b;
     _facts_cache := c |}.

Definition cache (s : state) : gmap Z Fact := _facts_cache (self s).

Definition with_cache (c : gmap Z Fact) (s : state) : state :=
  {| self := set_cache c (self s); world := world s |}.

(** [self._listeners] *)
Definition get_listeners : M (list Listener) := λ s,
  Run (Return (_listeners (self s))) s [].

(** [self._facts_cache.keys()] *)
Definition cache_keys : M (gset Z) := λ s,
  Run (Return (dom (cache s))) s [].

(** [self._facts_cache.get(i)] *)
Definition cache_get (i : Z) : M (option Fact) := λ s,
  Run (Return (cache s !! i)) s [].

(** [self._facts_cache[i] = fact] *)
Definition cache_set (i : Z) (fact : Fact) : M unit := λ s,
  Run (Return tt) (with_cache (<[i:=fact]> (cache s)) s) [].

(** [del self._facts_cache[i]]; a missing key raises [KeyError]. *)
Definition cache_del (i : Z) : M unit := λ s,
  match cache s !! i with
  | Some _ => Run (Return tt) (with_cache (delete i (cache s)) s) []
  | None => Run Raise s []
  end.

(** [listener.cb(fact)] *)
Definition call (cb : callback) (fact : Fact) (listener : Listener) : M unit := λ s,
  let '(r, w) := invoke listener cb fact (world s) in
  Run r {| self := self s; world := w |}
      [Event listener cb fact (match r with Raise => true | Return _ => false end)].

(** [for listener in self._listeners: listener.cb(fact)] *)
Definition notify (cb : callback) (fact : Fact) : M unit :=
  listeners ← get_listeners;
  for_each listeners (call cb fact).

(** ** The bridge's tick *)

Definition cleanup_extraneous_facts_cache_entries (current_facts : list Fact) : M unit :=
  keys ← cache_keys;
  let extraneous_fact_ids : gset Z := keys ∖ list_to_set (id <$> current_facts) in
  for_each (elements extraneous_fact_ids) cache_del.

(** The body of [for fact in current_facts] in [process].  A cached [Fact]
    is an object without [__bool__] or [__len__], hence truthy: in
    [cached_fact and cached_fact.end_time] only [None] stops at the first
    operand. *)
Definition process_fact (fact : Fact) : M unit :=
  cached_fact ← cache_get (id fact);
  if decide (cached_fact = Some fact) then ret tt
  else
    when (bool_decide (cached_fact = None)) (notify on_fact_started fact) ;;
    let is_cached_fact_started :=
      negb (match cached_fact with
            | Some c => truthy (end_time c)
            | None => false
            end) in
    when (truthy (end_time fact) && is_cached_fact_started)
         (notify on_fact_stopped fact) ;;
    cache_set (id fact) fact.

(** [process], with [current_facts] the list that
    [self.get_todays_facts()] returned for this tick. *)
Definition process (current_facts : list Fact) : M unit :=
  cleanup_extraneous_facts_cache_entries current_facts ;;
  for_each current_facts process_fact.

(** The [while True] loop of [run], cut after the ticks whose snapshots are
    given ([time.sleep] changes nothing the bridge looks at). *)
Definition run_ticks (snapshots : list (list Fact)) : M unit :=
  for_each snapshots process.

(** [{fact.id: fact for fact in facts}]: a later fact with the same id
    replaces an earlier one. *)
Definition facts_by_id (facts : list Fact) : gmap Z Fact :=
  foldl (λ c fact, <[id fact:=fact]> c) ∅ facts.

(** ** Vocabulary of the statements *)

(** The ids of a snapshot. *)
Definition ids (facts : list Fact) : gset Z := list_to_set (id <$> facts).

(** The calls of a trace that were made with [fact] as argument. *)
Definition calls_for (fact : Fact) (es : list event) : list event :=
  filter (λ e, ev_fact e = fact) es.

(** A call without its ending. *)
Definition signature (e : event) : Listener * callback * Fact :=
  (ev_listener e, ev_callback e, ev_fact e).

(** One returning call of [cb] with [fact] on each listener, in the order
    of the registry. *)
Definition dispatched (cb : callback) (fact : Fact) (listeners : list Listener)
  : list event :=
  (λ l, Event l cb fact false) <$> listeners.

(** The callbacks that the comparison of [fact] with its cache entry calls
    for, in the order [process] dispatches them. *)
Definition due (cached_fact : option Fact) (fact : Fact) : list callback :=
  if decide (cached_fact = Some fact) then []
  else
    (if cached_fact is None then [on_fact_started] else []) ++
    (if truthy (end_time fact)
        && negb (from_option (λ c, truthy (end_time c)) false cached_fact)
     then [on_fact_stopped] else []).

(** The trace of a dispatch of those callbacks in which every call returns. *)
Definition expected (cached_fact : option Fact) (fact : Fact)
    (listeners : list Listener) : list event :=
  concat ((λ cb, dispatched cb fact listeners) <$> due cached_fact fact).

(** The same call, returning. *)
Definition returning (e : event) : event :=
  Event (ev_listener e) (ev_callback e) (ev_fact e) false.

(** [fact] is the only fact of the snapshot that carries its id. *)
Definition sole_id (fact : Fact) (facts : list Fact) : Prop :=
  ∀ g, g ∈ facts → id g = id fact → g = fact.

(** The state after the eviction that opens the tick. *)
Definition evicted (facts : list Fact) (s : state) : state :=
  final (cleanup_extraneous_facts_cache_entries facts s).

Definition quiet (e : event) : Prop := ev_raised e = false.

(** ** The monad *)

Lemma run_eta {A} (r : run A) : Run (outcome r) (final r) (calls r) = r.
Proof. by destruct r. Qed.

Lemma bind_unfold {A B} (m : M A) (k : A → M B) s :
  (m ≫= k) s =
  match outcome (m s) with
  | Return a =>
      Run (outcome (k a (final (m s)))) (final (k a (final (m s))))
          (calls (m s) ++ calls (k a (final (m s))))
  | Raise => Run Raise (final (m s)) (calls (m s))
  end.
Proof. reflexivity. Qed.



Lemma bind_silent {A B} (m : M A) (k : A → M B) s a s' :
  m s = Run (Return a) s' [] → (m ≫= k) s = k a s'.
Proof. intros E. rewrite bind_unfold, E. simpl. apply run_eta. Qed.

Lemma for_each_cons {A} (x : A) xs (body : A → M unit) s :
  for_each (x :: xs) body s = (body x ;; for_each xs body) s.
Proof. reflexivity. Qed.

Lemma for_each_app {A} (xs ys : list A) (body : A → M unit) s :
  for_each (xs ++ ys) body s = (for_each xs body ;; for_each ys body) s.
Proof.
  revert s. induction xs as [|x xs IH]; intros s.
  - by rewrite (bind_silent _ _ _ tt s).
  - simpl app. rewrite (for_each_cons x (xs ++ ys)), bind_unfold.
    rewrite (bind_unfold (for_each (x :: xs) body)), (for_each_cons x xs).
    rewrite bind_unfold.
    destruct (outcome (body x s)) as [[]|] eqn:E; [|done].
    rewrite IH, bind_unfold. simpl.
    destruct (outcome (for_each xs body (final (body x s)))) as [[]|]; simpl;
      by rewrite ?app_assoc.
Qed.

(** ** The state *)

Lemma with_cache_id s : with_cache (cache s) s = s.
Proof. by destruct s as [[] ?]. Qed.

Lemma cache_with_cache c s : cache (with_cache c s) = c.
Proof. reflexivity. Qed.


(** ** Eviction *)

Lemma lookup_foldl_delete (l : list Z) (c : gmap Z Fact) i :
  foldl (λ c i, delete i c) c l !! i = if decide (i ∈ l) then None else c !! i.
Proof.
  revert c. induction l as [|j l IH]; intros c; cbn [foldl].
  - by rewrite decide_False by set_solver.
  - rewrite IH. destruct (decide (i = j)) as [->|Hne].
    + rewrite lookup_delete_eq. rewrite (decide_True (P := j ∈ j :: l)) by set_solver.
      by destruct (decide (j ∈ l)).
    + rewrite lookup_delete_ne by done.
      destruct (decide (i ∈ l)).
      * by rewrite decide_True by set_solver.
      * by rewrite decide_False by (by apply not_elem_of_cons).
Qed.

Lemma for_each_cache_del (l : list Z) s :
  NoDup l → (∀ i, i ∈ l → is_Some (cache s !! i)) →
  for_each l cache_del s =
  Run (Return tt) (with_cache (foldl (λ c i, delete i c) (cache s) l) s) [].
Proof.
  revert s. induction l as [|j l IH]; intros s Hnd Hin.
  - simpl. unfold ret. by rewrite with_cache_id.
  - apply NoDup_cons in Hnd as [Hj Hnd].
    destruct (Hin j) as [x Hx]; [set_solver|].
    rewrite for_each_cons.
    rewrite (bind_silent _ _ _ tt (with_cache (delete j (cache s)) s)).
    + rewrite IH; [done|done|].
      intros i Hi. rewrite cache_with_cache, lookup_delete_ne by set_solver.
      apply Hin. set_solver.
    + unfold cache_del. by rewrite Hx.
Qed.

Lemma cleanup_run facts s :
  ∃ c, cleanup_extraneous_facts_cache_entries facts s
         = Run (Return tt) (with_cache c s) []
       ∧ ∀ i, c !! i = if decide (i ∈ ids facts) then cache s !! i else None.
Proof.
  unfold cleanup_extraneous_facts_cache_entries.
  rewrite (bind_silent _ _ _ (dom (cache s)) s) by done.
  eexists. split.
  - apply for_each_cache_del; [apply NoDup_elements|].
    intros i Hi. apply elem_of_elements, elem_of_difference in Hi as [Hi _].
    by apply elem_of_dom.
  - intros i. rewrite lookup_foldl_delete. fold (ids facts).
    destruct (decide (i ∈ ids facts)) as [Hi|Hi].
    + rewrite decide_False; [done|]. rewrite elem_of_elements.
      by intros [_ ?]%elem_of_difference.
    + destruct (cache s !! i) eqn:E.
      * rewrite decide_True; [done|]. rewrite elem_of_elements, elem_of_difference.
        split; [|done]. apply elem_of_dom. by rewrite E.
      * by destruct (decide _).
Qed.

Lemma cleanup_unchanged facts s :
  dom (cache s) ⊆ ids facts →
  cleanup_extraneous_facts_cache_entries facts s = Run (Return tt) s [].
Proof.
  intros Hsub. destruct (cleanup_run facts s) as (c & -> & Hc).
  f_equal. rewrite <- (with_cache_id s) at 2. f_equal.
  apply map_eq. intros i. rewrite Hc.
  destruct (decide (i ∈ ids facts)) as [|Hi]; [done|].
  symmetry. apply not_elem_of_dom. set_solver.
Qed.

(** ** Dispatch to the listeners *)

Lemma call_run cb fact l s :
  ∃ w, call cb fact l s
         = Run (Return tt) {| self := self s; world := w |}
               [Event l cb fact false]
     ∨ call cb fact l s
         = Run Raise {| self := self s; world := w |} [Event l cb fact true].
Proof.
  unfold call. destruct (invoke l cb fact (world s)) as [[[]|] w];
    exists w; [by left|by right].
Qed.

Lemma dispatch_run cb fact ls s :
  let r := for_each ls (call cb fact) s in
  self (final r) = self s ∧
  match outcome r with
  | Return _ => calls r = dispatched cb fact ls
  | Raise => ∃ ls1 l ls2, ls = ls1 ++ l :: ls2 ∧
      calls r = dispatched cb fact ls1 ++ [Event l cb fact true]
  end.
Proof.
  revert s. induction ls as [|l ls IH]; intros s; [done|].
  cbn zeta. rewrite for_each_cons, bind_unfold.
  destruct (call_run cb fact l s) as [w [E|E]]; rewrite E; simpl.
  - destruct (IH {| self := self s; world := w |}) as [IHs IHc].
    split; [done|].
    destruct (outcome (for_each ls _ _)) as [[]|].
    + by rewrite IHc.
    + destruct IHc as (ls1 & l' & ls2 & -> & ->).
      by exists (l :: ls1), l', ls2.
  - split; [done|]. by exists [], l, ls.
Qed.

Lemma notify_run cb fact s :
  let r := notify cb fact s in
  self (final r) = self s ∧
  match outcome r with
  | Return _ => calls r = dispatched cb fact (_listeners (self s))
  | Raise => ∃ ls1 l ls2, _listeners (self s) = ls1 ++ l :: ls2 ∧
      calls r = dispatched cb fact ls1 ++ [Event l cb fact true]
  end.
Proof.
  unfold notify. rewrite (bind_silent _ _ _ (_listeners (self s)) s) by done.
  apply dispatch_run.
Qed.

Lemma dispatched_app cb fact ls1 ls2 :
  dispatched cb fact (ls1 ++ ls2) = dispatched cb fact ls1 ++ dispatched cb fact ls2.
Proof. apply fmap_app. Qed.

Lemma set_cache_id (b : HamsterBridge) : set_cache (_facts_cache b) b = b.
Proof. by destruct b. Qed.

(** ** One fact of the snapshot *)

Lemma process_fact_skip fact s :
  cache s !! id fact = Some fact → process_fact fact s = Run (Return tt) s [].
Proof.
  intros E. unfold process_fact.
  rewrite (bind_silent _ _ _ (cache s !! id fact) s) by done.
  by rewrite decide_True.
Qed.

Lemma stop_stage_run (b : bool) fact s :
  let r := (when b (notify on_fact_stopped fact) ;; cache_set (id fact) fact) s in
  let want :=
    if b then dispatched on_fact_stopped fact (_listeners (self s)) else [] in
  match outcome r with
  | Return _ =>
      calls r = want ∧
      self (final r) = set_cache (<[id fact:=fact]> (cache s)) (self s)
  | Raise =>
      self (final r) = self s ∧
      ∃ ls1 l ls2, _listeners (self s) = ls1 ++ l :: ls2 ∧
        calls r = dispatched on_fact_stopped fact ls1
                  ++ [Event l on_fact_stopped fact true] ∧
        want = dispatched on_fact_stopped fact (ls1 ++ l :: ls2)
  end.
Proof.
  cbn zeta. rewrite bind_unfold. destruct b; unfold when.
  - destruct (notify_run on_fact_stopped fact s) as [Hn Hc].
    destruct (outcome (notify on_fact_stopped fact s)) as [[]|];
      cbn [outcome final calls cache_set].
    + rewrite Hc, app_nil_r. split; [done|].
      unfold with_cache, cache. cbn [self]. by rewrite Hn.
    + split; [done|]. destruct Hc as (ls1 & l & ls2 & -> & ->).
      by exists ls1, l, ls2.
  - by cbn [outcome final calls cache_set ret].
Qed.

(** The trace of one fact: what the cache entry called for when every call
    returned; otherwise that list cut at the call that raised, which is the
    dispatch of one callback stopped at one listener of the registry. *)
Lemma process_fact_shape fact s :
  let r := process_fact fact s in
  let want := expected (cache s !! id fact) fact (_listeners (self s)) in
  match outcome r with
  | Return _ =>
      calls r = want ∧
      self (final r) = set_cache (<[id fact:=fact]> (cache s)) (self s)
  | Raise =>
      self (final r) = self s ∧ cache s !! id fact ≠ Some fact ∧
      ∃ seen cb ls1 l ls2 rest,
        _listeners (self s) = ls1 ++ l :: ls2 ∧
        calls r = seen ++ dispatched cb fact ls1 ++ [Event l cb fact true] ∧
        want = seen ++ dispatched cb fact ls1 ++ Event l cb fact false :: rest
  end.
Proof.
  cbn zeta. destruct (decide (cache s !! id fact = Some fact)) as [E|E].
  { rewrite process_fact_skip by done. cbn [outcome final calls].
    unfold expected, due. rewrite decide_True by done. split; [done|].
    unfold cache. by rewrite insert_id, set_cache_id. }
  unfold process_fact.
  rewrite (bind_silent _ _ _ (cache s !! id fact) s) by done.
  rewrite decide_False by done. unfold expected, due.
  rewrite decide_False by done.
  set (ls := _listeners (self s)).
  destruct (cache s !! id fact) as [c|] eqn:Ec.
  - rewrite bool_decide_false by done.
    rewrite (bind_silent (when false _) _ _ tt s) by done.
    pose proof (stop_stage_run (truthy (end_time fact) && negb (truthy (end_time c)))
                  fact s) as Hstop.
    cbn zeta in Hstop. fold ls in Hstop. revert Hstop.
    cbn [from_option fmap list_fmap concat app].
    destruct (outcome _) as [[]|].
    + intros [-> ->]. split; [|done].
      destruct (_ && _); [|done]. cbn. by rewrite app_nil_r.
    + intros [-> (ls1 & l & ls2 & Hls & -> & Hw)]. split; [done|]. split; [done|].
      exists [], on_fact_stopped, ls1, l, ls2, (dispatched on_fact_stopped fact ls2).
      split; [done|]. split; [done|].
      destruct (_ && _); [|by destruct ls1]. cbn.
      by rewrite app_nil_r, Hls, dispatched_app.
  - rewrite bool_decide_true by done.
    change (when true ?m) with m. rewrite bind_unfold.
    destruct (notify_run on_fact_started fact s) as [Hn Hc]. fold ls in Hc.
    destruct (outcome (notify on_fact_started fact s)) as [[]|].
    + pose proof (stop_stage_run (truthy (end_time fact) && negb false) fact
                    (final (notify on_fact_started fact s))) as Hstop.
      cbn zeta in Hstop. rewrite Hn in Hstop. fold ls in Hstop.
      unfold cache in Hstop at 1. rewrite Hn in Hstop. fold (cache s) in Hstop.
      revert Hstop. cbn [outcome final calls from_option].
      destruct (outcome _) as [[]|]; rewrite Hc.
      * intros [-> ->]. split; [|done].
        destruct (_ && _); cbn; by rewrite ?app_nil_r.
      * intros [-> (ls1 & l & ls2 & Hls & -> & Hw)]. split; [done|]. split; [done|].
        exists (dispatched on_fact_started fact ls), on_fact_stopped, ls1, l, ls2,
               (dispatched on_fact_stopped fact ls2).
        split; [done|]. split; [done|].
        destruct (_ && _); [|by destruct ls1]. cbn.
        by rewrite app_nil_r, Hls, !dispatched_app.
    + cbn [outcome final calls]. split; [done|]. split; [done|].
      destruct Hc as (ls1 & l & ls2 & Hls & ->).
      exists [], on_fact_started, ls1, l, ls2,
             (dispatched on_fact_started fact ls2 ++
              concat ((λ cb, dispatched cb fact ls) <$>
                (if truthy (end_time fact) && negb (from_option (λ c, truthy (end_time c)) false None)
                 then [on_fact_stopped] else []))).
      split; [done|]. split; [done|].
      cbn [fmap list_fmap concat app]. rewrite Hls, dispatched_app.
      by rewrite <- !app_assoc.
Qed.

Lemma process_fact_run fact s :
  let r := process_fact fact s in
  let want := expected (cache s !! id fact) fact (_listeners (self s)) in
  match outcome r with
  | Return _ =>
      calls r = want ∧
      self (final r) = set_cache (<[id fact:=fact]> (cache s)) (self s)
  | Raise =>
      self (final r) = self s ∧ cache s !! id fact ≠ Some fact ∧
      ∃ pre e rest, calls r = pre ++ [e] ∧ ev_raised e = true ∧
        want = pre ++ returning e :: rest
  end.
Proof.
  pose proof (process_fact_shape fact s) as Hr. cbn zeta in *.
  destruct (outcome (process_fact fact s)) as [[]|]; [done|].
  destruct Hr as (Hs & Hc & seen & cb & ls1 & l & ls2 & rest & _ & Hcalls & Hw).
  split; [done|]. split; [done|].
  exists (seen ++ dispatched cb fact ls1), (Event l cb fact true), rest.
  by rewrite Hcalls, Hw, <- !app_assoc.
Qed.

Lemma expected_shape cached fact ls :
  Forall (λ e, ev_fact e = fact ∧ quiet e) (expected cached fact ls).
Proof.
  unfold expected. apply Forall_concat, Forall_fmap, Forall_forall.
  intros cb _. apply Forall_fmap, Forall_forall. by intros l _.
Qed.

Lemma process_fact_calls fact s :
  Forall (λ e, ev_fact e = fact) (calls (process_fact fact s)).
Proof.
  pose proof (process_fact_run fact s) as Hr. cbn zeta in Hr.
  pose proof (expected_shape (cache s !! id fact) fact (_listeners (self s))) as Hw.
  destruct (outcome (process_fact fact s)) as [[]|].
  - destruct Hr as [-> _]. eapply Forall_impl; [exact Hw|]. by intros e [? _].
  - destruct Hr as (_ & _ & pre & e & rest & -> & _ & Hrest).
    rewrite Hrest in Hw. apply Forall_app in Hw as [Hpre Hw].
    apply Forall_cons in Hw as [[He _] _].
    apply Forall_app. split.
    + eapply Forall_impl; [exact Hpre|]. by intros ? [? _].
    + by apply Forall_singleton.
Qed.

Lemma process_fact_quiet fact s :
  outcome (process_fact fact s) = Return tt →
  Forall quiet (calls (process_fact fact s)).
Proof.
  intros E. pose proof (process_fact_run fact s) as Hr. cbn zeta in Hr.
  rewrite E in Hr. destruct Hr as [-> _].
  eapply Forall_impl; [apply expected_shape|]. by intros e [_ ?].
Qed.

Lemma process_fact_listeners fact s :
  _listeners (self (final (process_fact fact s))) = _listeners (self s).
Proof.
  pose proof (process_fact_run fact s) as Hr. cbn zeta in Hr.
  destruct (outcome (process_fact fact s)) as [[]|].
  - destruct Hr as [_ ->]. done.
  - destruct Hr as [-> _]. done.
Qed.

Lemma process_fact_cache_other fact s j :
  j ≠ id fact → cache (final (process_fact fact s)) !! j = cache s !! j.
Proof.
  intros Hj. pose proof (process_fact_run fact s) as Hr. cbn zeta in Hr.
  unfold cache at 1.
  destruct (outcome (process_fact fact s)) as [[]|].
  - destruct Hr as [_ ->]. cbn. by rewrite lookup_insert_ne.
  - destruct Hr as [-> _]. done.
Qed.

Lemma process_fact_cached fact s :
  outcome (process_fact fact s) = Return tt →
  cache (final (process_fact fact s)) !! id fact = Some fact.
Proof.
  intros E. pose proof (process_fact_run fact s) as Hr. cbn zeta in Hr.
  rewrite E in Hr. destruct Hr as [_ Hs]. unfold cache at 1. rewrite Hs.
  cbn. by rewrite lookup_insert_eq.
Qed.


(** ** The loop over the snapshot *)

Lemma for_each_preserves {A} (P : state → Prop) (Q : event → Prop)
    (xs : list A) (body : A → M unit) :
  (∀ x s, x ∈ xs → P s → P (final (body x s)) ∧ Forall Q (calls (body x s))) →
  ∀ s, P s →
    P (final (for_each xs body s)) ∧ Forall Q (calls (for_each xs body s)).
Proof.
  induction xs as [|x xs IH]; intros Hbody s Hs; [done|].
  rewrite for_each_cons, bind_unfold.
  destruct (Hbody x s) as [HP HQ]; [apply list_elem_of_here|done|].
  destruct (outcome (body x s)) as [[]|]; cbn [final calls]; [|done].
  destruct (IH (λ y s' Hy, Hbody y s' (list_elem_of_further _ _ _ Hy))
               (final (body x s)) HP) as [HP' HQ'].
  split; [done|]. by apply Forall_app.
Qed.

Lemma loop_listeners facts s :
  _listeners (self (final (for_each facts process_fact s))) = _listeners (self s).
Proof.
  apply (for_each_preserves
           (λ s', _listeners (self s') = _listeners (self s)) (λ _, True));
    [|done].
  intros g s' _ Hs'. split; [|by apply Forall_true].
  by rewrite process_fact_listeners.
Qed.

Lemma loop_cache_other facts s j :
  (∀ g, g ∈ facts → id g ≠ j) →
  cache (final (for_each facts process_fact s)) !! j = cache s !! j.
Proof.
  intros Hj.
  apply (for_each_preserves (λ s', cache s' !! j = cache s !! j) (λ _, True));
    [|done].
  intros g s' Hg Hs'. split; [|by apply Forall_true].
  rewrite process_fact_cache_other; [done|]. intros ->. by apply (Hj g).
Qed.

Lemma loop_calls facts s :
  Forall (λ e, ev_fact e ∈ facts) (calls (for_each facts process_fact s)).
Proof.
  apply (for_each_preserves (λ _, True) (λ e, ev_fact e ∈ facts)); [|done].
  intros g s' Hg _. split; [done|].
  eapply Forall_impl; [apply process_fact_calls|]. by intros e ->.
Qed.

Lemma filter_none {A} (P : A → Prop) `{∀ x, Decision (P x)} (xs : list A) :
  Forall (λ x, ¬ P x) xs → filter P xs = [].
Proof.
  induction 1 as [|x xs Hx _ IH]; [done|]. by rewrite filter_cons_False.
Qed.

Lemma calls_for_other fact (es : list event) :
  Forall (λ e, ev_fact e ≠ fact) es → calls_for fact es = [].
Proof. apply filter_none. Qed.

Lemma calls_for_same fact (es : list event) :
  Forall (λ e, ev_fact e = fact) es → calls_for fact es = es.
Proof.
  unfold calls_for. induction 1 as [|e es He _ IH]; [done|].
  rewrite filter_cons_True by done. by rewrite IH.
Qed.

Lemma calls_for_app fact (es1 es2 : list event) :
  calls_for fact (es1 ++ es2) = calls_for fact es1 ++ calls_for fact es2.
Proof. apply filter_app. Qed.

Lemma sole_id_cons fact g facts :
  sole_id fact (g :: facts) → sole_id fact facts.
Proof. intros Hsole h Hh. apply Hsole. by apply list_elem_of_further. Qed.

Lemma process_fact_calls_other fact g s :
  g ≠ fact → calls_for fact (calls (process_fact g s)) = [].
Proof.
  intros Hne. apply calls_for_other.
  eapply Forall_impl; [apply process_fact_calls|]. by intros e ->.
Qed.

(** Once [fact] is in the cache, the rest of the loop leaves it alone. *)
Lemma loop_stable fact facts s :
  sole_id fact facts → cache s !! id fact = Some fact →
  calls_for fact (calls (for_each facts process_fact s)) = [] ∧
  cache (final (for_each facts process_fact s)) !! id fact = Some fact.
Proof.
  revert s. induction facts as [|g facts IH]; intros s Hsole Hc; [done|].
  rewrite for_each_cons, bind_unfold.
  assert (calls_for fact (calls (process_fact g s)) = [] ∧
          cache (final (process_fact g s)) !! id fact = Some fact) as [Hg Hc'].
  { destruct (decide (g = fact)) as [->|Hne].
    - by rewrite process_fact_skip.
    - split; [by apply process_fact_calls_other|].
      rewrite process_fact_cache_other; [done|].
      intros Hid. apply Hne. apply Hsole; [apply list_elem_of_here|done]. }
  destruct (outcome (process_fact g s)) as [[]|]; cbn [final calls]; [|done].
  destruct (IH (final (process_fact g s))) as [IHc IHs];
    [by eapply sole_id_cons|done|].
  by rewrite calls_for_app, Hg, IHc.
Qed.

(** A tick that returns has dispatched, for [fact], what its cache entry at
    the start of the loop called for, and has cached it. *)
Lemma loop_fire fact facts s :
  fact ∈ facts → sole_id fact facts →
  outcome (for_each facts process_fact s) = Return tt →
  calls_for fact (calls (for_each facts process_fact s))
    = expected (cache s !! id fact) fact (_listeners (self s)) ∧
  cache (final (for_each facts process_fact s)) !! id fact = Some fact.
Proof.
  revert s. induction facts as [|g facts IH]; intros s Hin Hsole; [set_solver|].
  rewrite for_each_cons, bind_unfold.
  destruct (outcome (process_fact g s)) as [[]|] eqn:Eg; cbn [outcome final calls];
    [|done].
  intros Hret. rewrite calls_for_app.
  destruct (decide (g = fact)) as [->|Hne].
  - destruct (loop_stable fact facts (final (process_fact fact s))) as [Hc Hs];
      [by eapply sole_id_cons|by apply process_fact_cached|].
    rewrite Hc, app_nil_r. split; [|done].
    rewrite calls_for_same by apply process_fact_calls.
    pose proof (process_fact_run fact s) as Hr. cbn zeta in Hr.
    rewrite Eg in Hr. by destruct Hr as [-> _].
  - rewrite process_fact_calls_other by done.
    destruct (IH (final (process_fact g s))) as [IHc IHs];
      [by apply elem_of_cons in Hin as [->|Hin]
      |by eapply sole_id_cons|done|].
    rewrite IHc, process_fact_listeners, process_fact_cache_other; [done|].
    intros Hid. apply Hne. apply Hsole; [apply list_elem_of_here|done].
Qed.

(** ** The tick *)

Lemma elem_of_ids i facts : i ∈ ids facts ↔ ∃ g, g ∈ facts ∧ id g = i.
Proof.
  unfold ids. rewrite elem_of_list_to_set, list_elem_of_fmap.
  split; intros (g & ? & ?); by exists g.
Qed.

Lemma process_unfold facts s :
  ∃ c, process facts s = for_each facts process_fact (with_cache c s) ∧
       ∀ i, c !! i = if decide (i ∈ ids facts) then cache s !! i else None.
Proof.
  destruct (cleanup_run facts s) as (c & Hclean & Hc).
  exists c. split; [|done]. unfold process.
  by rewrite (bind_silent _ _ _ tt (with_cache c s)).
Qed.

Lemma process_keeps facts s i :
  i ∈ ids facts →
  ∃ c, process facts s = for_each facts process_fact (with_cache c s) ∧
       c !! i = cache s !! i.
Proof.
  intros Hi. destruct (process_unfold facts s) as (c & Hp & Hc).
  exists c. split; [done|]. by rewrite Hc, decide_True.
Qed.

Lemma id_in_ids fact facts : fact ∈ facts → id fact ∈ ids facts.
Proof. intros Hin. apply elem_of_ids. by exists fact. Qed.

(** What a returning tick does for a fact that alone carries its id. *)
Lemma process_fire fact facts s :
  fact ∈ facts → sole_id fact facts →
  outcome (process facts s) = Return tt →
  calls_for fact (calls (process facts s))
    = expected (cache s !! id fact) fact (_listeners (self s)) ∧
  cache (final (process facts s)) !! id fact = Some fact.
Proof.
  intros Hin Hsole.
  destruct (process_keeps facts s (id fact)) as (c & -> & Hc);
    [by apply id_in_ids|].
  intros Hret.
  destruct (loop_fire fact facts (with_cache c s)) as [H1 H2]; [done..|].
  rewrite H1, H2, cache_with_cache, Hc. done.
Qed.

Lemma process_stable fact facts s :
  fact ∈ facts → sole_id fact facts → cache s !! id fact = Some fact →
  calls_for fact (calls (process facts s)) = [] ∧
  cache (final (process facts s)) !! id fact = Some fact.
Proof.
  intros Hin Hsole Hcached.
  destruct (process_keeps facts s (id fact)) as (c & -> & Hc);
    [by apply id_in_ids|].
  apply loop_stable; [done|]. by rewrite cache_with_cache, Hc.
Qed.

Lemma run_ticks_stable fact facts n s :
  fact ∈ facts → sole_id fact facts → cache s !! id fact = Some fact →
  calls_for fact (calls (run_ticks (replicate n facts) s)) = [].
Proof.
  intros Hin Hsole. revert s. unfold run_ticks.
  induction n as [|n IH]; intros s Hcached; [done|].
  cbn [replicate]. rewrite for_each_cons, bind_unfold.
  destruct (process_stable fact facts s) as [Hc Hs]; [done..|].
  destruct (outcome (process facts s)) as [[]|]; cbn [calls]; [|done].
  by rewrite calls_for_app, Hc, IH.
Qed.

Lemma expected_stop cached fact ls :
  end_time cached = None → is_Some (end_time fact) →
  expected (Some cached) fact ls = dispatched on_fact_stopped fact ls.
Proof.
  intros Hc [t Ht]. unfold expected, due.
  rewrite decide_False by (intros [= ->]; congruence).
  cbn. rewrite Hc, Ht. cbn. apply app_nil_r.
Qed.

Lemma expected_start_stop fact ls :
  is_Some (end_time fact) →
  expected None fact ls
    = dispatched on_fact_started fact ls ++ dispatched on_fact_stopped fact ls.
Proof.
  intros [t Ht]. unfold expected, due. rewrite decide_False by done.
  cbn. rewrite Ht. cbn. by rewrite app_nil_r.
Qed.

Lemma expected_start fact ls :
  end_time fact = None →
  expected None fact ls = dispatched on_fact_started fact ls.
Proof.
  intros Ht. unfold expected, due. rewrite decide_False by done.
  cbn. rewrite Ht. cbn. by rewrite app_nil_r.
Qed.

Lemma expected_update cached fact ls :
  (is_Some (end_time fact) ↔ is_Some (end_time cached)) →
  expected (Some cached) fact ls = [].
Proof.
  intros Hiff. unfold expected, due. destruct (decide _); [done|]. cbn.
  destruct (end_time fact) as [t|]; [|done].
  destruct (end_time cached) as [t'|]; [done|].
  destruct Hiff as [Hiff _]. by destruct Hiff.
Qed.

Lemma NoDup_ids_sole fact facts :
  NoDup (id <$> facts) → fact ∈ facts → sole_id fact facts.
Proof.
  intros Hnd Hin g Hg Hid.
  apply list_elem_of_lookup in Hin as [i Hi], Hg as [j Hj].
  assert (i = j) as ->; [|congruence].
  eapply NoDup_lookup; [exact Hnd| |]; rewrite list_lookup_fmap.
  - by rewrite Hi.
  - rewrite Hj. cbn. by rewrite Hid.
Qed.

(** ** The registry *)

Lemma add_listener_registered l b : l ∈ _listeners (add_listener l b).
Proof. unfold add_listener. destruct (decide _); [done|]. cbn. set_solver. Qed.

Lemma add_listener_NoDup l b :
  NoDup (_listeners b) → NoDup (_listeners (add_listener l b)).
Proof.
  intros Hnd. unfold add_listener. destruct (decide _) as [|Hl]; [done|]. cbn.
  apply NoDup_app. split; [done|]. split; [|apply NoDup_singleton].
  intros x Hx ?%list_elem_of_singleton. by subst.
Qed.

Lemma add_listener_twice l b :
  add_listener l (add_listener l b) = add_listener l b.
Proof.
  unfold add_listener at 1. by rewrite decide_True by apply add_listener_registered.
Qed.

Lemma registered_NoDup save (ls : list Listener) :
  NoDup (_listeners (foldl (λ b l, add_listener l b) (__init__ save) ls)).
Proof.
  assert (∀ b, NoDup (_listeners b) →
               NoDup (_listeners (foldl (λ b l, add_listener l b) b ls))) as Hgen.
  { induction ls as [|l ls IH]; intros b Hb; [done|].
    cbn [foldl]. by apply IH, add_listener_NoDup. }
  apply Hgen. cbn. apply NoDup_nil_2.
Qed.

Lemma NoDup_filter_eq_length (l : Listener) (ls : list Listener) :
  NoDup ls → l ∈ ls → length (filter (λ x, x = l) ls) = 1%nat.
Proof.
  induction 1 as [|x ls Hx Hnd IH]; intros Hin; [by apply elem_of_nil in Hin|].
  destruct (decide (x = l)) as [->|Hne].
  - rewrite filter_cons_True by done. rewrite filter_none; [done|].
    apply Forall_forall. by intros y Hy ->.
  - rewrite filter_cons_False by done. apply IH.
    by apply elem_of_cons in Hin as [->|Hin].
Qed.

Lemma dispatched_by_listener l cb fact ls :
  length (filter (λ e, ev_listener e = l) (dispatched cb fact ls))
  = length (filter (λ x, x = l) ls).
Proof.
  unfold dispatched. induction ls as [|x ls IH]; [done|]. cbn [fmap list_fmap].
  destruct (decide (x = l)) as [->|Hne].
  - rewrite !filter_cons_True by done. cbn. by rewrite <- IH.
  - by rewrite !filter_cons_False by done.
Qed.

(** ** A tick that a listener aborts *)

Lemma loop_skip facts s :
  (∀ fact, fact ∈ facts → cache s !! id fact = Some fact) →
  for_each facts process_fact s = Run (Return tt) s [].
Proof.
  induction facts as [|g facts IH]; intros Hsame; [done|].
  rewrite for_each_cons.
  rewrite (bind_silent _ _ _ tt s) by (apply process_fact_skip, Hsame; set_solver).
  apply IH. intros fact Hin. apply Hsame. set_solver.
Qed.

Lemma loop_quiet facts s :
  outcome (for_each facts process_fact s) = Return tt →
  Forall quiet (calls (for_each facts process_fact s)).
Proof.
  revert s. induction facts as [|g facts IH]; intros s; [done|].
  rewrite for_each_cons, bind_unfold.
  destruct (outcome (process_fact g s)) as [[]|] eqn:Eg; cbn [outcome calls];
    [|done].
  intros Hret. apply Forall_app. split; [by apply process_fact_quiet|by apply IH].
Qed.

(** A loop that raises has returned from a first part of the snapshot and
    raised in the fact that follows; it ends in the state and with the trace
    of that fact. *)
Lemma loop_raise facts s :
  outcome (for_each facts process_fact s) = Raise →
  ∃ before fact after,
    facts = before ++ fact :: after ∧
    outcome (for_each before process_fact s) = Return tt ∧
    let s1 := final (for_each before process_fact s) in
    outcome (process_fact fact s1) = Raise ∧
    for_each facts process_fact s
      = Run Raise (final (process_fact fact s1))
            (calls (for_each before process_fact s)
             ++ calls (process_fact fact s1)).
Proof.
  revert s. induction facts as [|g facts IH]; intros s; [done|].
  rewrite for_each_cons, bind_unfold.
  destruct (outcome (process_fact g s)) as [[]|] eqn:Eg; cbn [outcome].
  - intros Hraise.
    destruct (IH _ Hraise) as (before & fact & after & -> & Hb & Hf & Hloop).
    cbn zeta in Hf, Hloop.
    exists (g :: before), fact, after. split; [done|].
    rewrite for_each_cons, bind_unfold, Eg, Hb. cbn [outcome final calls].
    split; [done|]. split; [done|].
    rewrite Hloop. cbn [outcome final calls]. by rewrite app_assoc.
  - intros _. exists [], g, facts.
    split; [done|]. split; [done|]. split; [exact Eg|done].
Qed.

Lemma raised_is_last (es : list event) e' pre e post :
  Forall quiet es → es ++ [e'] = pre ++ e :: post → ev_raised e = true →
  pre = es ∧ e = e' ∧ post = [].
Proof.
  intros Hq. revert pre. induction Hq as [|x es Hx _ IH]; intros pre Heq He.
  - destruct pre as [|y pre]; simplify_eq/=; [done|].
    by destruct pre.
  - destruct pre as [|y pre]; simplify_eq/=.
    + unfold quiet in Hx. congruence.
    + destruct (IH pre) as (-> & -> & ->); done.
Qed.

Lemma evicted_run facts s :
  ∃ c, evicted facts s = with_cache c s ∧
       process facts s = for_each facts process_fact (evicted facts s) ∧
       ∀ i, c !! i = if decide (i ∈ ids facts) then cache s !! i else None.
Proof.
  destruct (cleanup_run facts s) as (c & Hclean & Hc).
  exists c. unfold evicted. rewrite Hclean. split; [done|]. split; [|done].
  unfold process. by rewrite (bind_silent _ _ _ tt (with_cache c s)).
Qed.

(** The anatomy of a tick in which a call raised. *)
Lemma process_abort facts s pre e post :
  calls (process facts s) = pre ++ e :: post → ev_raised e = true →
  ∃ before after seen ls1 ls2 rest,
    let fact := ev_fact e in
    let r0 := for_each before process_fact (evicted facts s) in
    let rf := process_fact fact (final r0) in
    facts = before ++ fact :: after ∧
    outcome r0 = Return tt ∧
    outcome rf = Raise ∧
    process facts s = Run Raise (final rf) (calls r0 ++ calls rf) ∧
    post = [] ∧
    pre = calls r0 ++ seen ++ dispatched (ev_callback e) fact ls1 ∧
    calls rf = seen ++ dispatched (ev_callback e) fact ls1 ++ [e] ∧
    _listeners (self s) = ls1 ++ ev_listener e :: ls2 ∧
    expected (cache (final r0) !! id fact) fact (_listeners (self s))
      = seen ++ dispatched (ev_callback e) fact ls1 ++ returning e :: rest ∧
    self (final rf) = self (final r0) ∧
    cache (final r0) !! id fact ≠ Some fact.
Proof.
  destruct (evicted_run facts s) as (c & Hev & -> & Hc).
  set (s0 := evicted facts s). intros Hcalls He.
  assert (outcome (for_each facts process_fact s0) = Raise) as Hraise.
  { destruct (outcome (for_each facts process_fact s0)) as [[]|] eqn:E; [|done].
    apply loop_quiet in E. rewrite Hcalls in E.
    apply Forall_app in E as [_ E]. apply Forall_cons in E as [E _].
    unfold quiet in E. congruence. }
  destruct (loop_raise facts s0 Hraise)
    as (before & fact & after & Hfacts & Hb & Hf & Hloop).
  cbn zeta in Hf, Hloop.
  set (s1 := final (for_each before process_fact s0)) in *.
  pose proof (process_fact_shape fact s1) as Hshape. cbn zeta in Hshape.
  rewrite Hf in Hshape.
  destruct Hshape as (Hself & Hne & seen & cb & ls1 & l & ls2 & rest
                      & Hls & Hcf & Hw).
  assert (_listeners (self s1) = _listeners (self s)) as Hsame.
  { unfold s1. rewrite loop_listeners. unfold s0. by rewrite Hev. }
  rewrite Hsame in Hls, Hw.
  rewrite Hloop in Hcalls. cbn [calls] in Hcalls. rewrite Hcf in Hcalls.
  assert (Forall quiet (calls (for_each before process_fact s0)
                        ++ seen ++ dispatched cb fact ls1)) as Hq.
  { apply Forall_app. split; [by apply loop_quiet|].
    pose proof (expected_shape (cache s1 !! id fact) fact (_listeners (self s)))
      as Hq.
    rewrite Hw, app_assoc in Hq. apply Forall_app in Hq as [Hq _].
    eapply Forall_impl; [exact Hq|]. by intros x [_ ?]. }
  rewrite !app_assoc in Hcalls. rewrite <- (app_assoc _ seen) in Hcalls.
  destruct (raised_is_last _ _ _ _ _ Hq Hcalls He) as (-> & -> & ->).
  exists before, after, seen, ls1, ls2, rest. cbn zeta. fold s0 s1.
  cbn [ev_fact ev_callback ev_listener returning].
  by repeat split.
Qed.

(** ** The tick after an aborted one *)

Lemma head_cut (pre : list event) x y rest :
  signature x = signature y →
  head (signature <$> pre ++ [x]) = head (signature <$> pre ++ y :: rest).
Proof. intros Hxy. destruct pre; cbn; [by rewrite Hxy|done]. Qed.

Lemma head_more (pre : list event) y rest more :
  head (signature <$> (pre ++ y :: rest) ++ more)
  = head (signature <$> pre ++ y :: rest).
Proof. by destruct pre. Qed.

(** A tick that finds the facts before [fact] cached as they are goes
    straight to [fact]: its trace opens with what the cache entry of [fact]
    calls for, whole or cut at a call that raised. *)
Lemma process_resumes facts before fact after s :
  facts = before ++ fact :: after →
  (∀ g, g ∈ before → cache s !! id g = Some g) →
  let r := process facts s in
  let want := expected (cache s !! id fact) fact (_listeners (self s)) in
  (∃ more, calls r = want ++ more) ∨
  (outcome r = Raise ∧
   ∃ pre x rest, calls r = pre ++ [x] ∧ want = pre ++ returning x :: rest).
Proof.
  intros Hfacts Hbefore. cbn zeta.
  destruct (evicted_run facts s) as (c & Hev & -> & Hc).
  assert (∀ g, g ∈ facts → cache (evicted facts s) !! id g = cache s !! id g)
    as Hkept.
  { intros g Hg. rewrite Hev, cache_with_cache, Hc.
    by rewrite decide_True by by apply id_in_ids. }
  assert (_listeners (self (evicted facts s)) = _listeners (self s)) as Hls
    by by rewrite Hev.
  rewrite <- (Hkept fact), <- Hls by (rewrite Hfacts; set_solver).
  assert (for_each before process_fact (evicted facts s)
          = Run (Return tt) (evicted facts s) []) as Hskip.
  { apply loop_skip. intros g Hg. rewrite Hkept; [by apply Hbefore|].
    rewrite Hfacts. set_solver. }
  set (s0 := evicted facts s) in *. clearbody s0.
  rewrite Hfacts, for_each_app.
  rewrite (bind_silent _ _ _ tt s0) by done.
  rewrite for_each_cons, bind_unfold.
  pose proof (process_fact_run fact s0) as Hrun. cbn zeta in Hrun.
  destruct (outcome (process_fact fact s0)) as [[]|]; cbn [outcome calls].
  - destruct Hrun as [-> _]. left. by eexists.
  - destruct Hrun as (_ & _ & pre & x & rest & -> & _ & ->). right.
    split; [done|]. by exists pre, x, rest.
Qed.

(** ** Listeners that return *)

Section Returning.

(** No callback of any listener raises. *)
Hypothesis invoke_returns : ∀ l cb fact w, (invoke l cb fact w).1 = Return tt.

Lemma notify_returns cb fact s : outcome (notify cb fact s) = Return tt.
Proof.
  unfold notify. rewrite (bind_silent _ _ _ (_listeners (self s)) s) by done.
  generalize (_listeners (self s)). intros ls. revert s.
  induction ls as [|l ls IH]; intros s; [done|].
  rewrite for_each_cons, bind_unfold.
  destruct (call_run cb fact l s) as [w [E|E]].
  - rewrite E. cbn [outcome final]. apply IH.
  - exfalso. pose proof (invoke_returns l cb fact (world s)) as Hret.
    unfold call in E. destruct (invoke l cb fact (world s)) as [r w'].
    cbn in Hret. subst r. discriminate E.
Qed.

Lemma process_fact_returns fact s : outcome (process_fact fact s) = Return tt.
Proof.
  unfold process_fact.
  rewrite (bind_silent _ _ _ (cache s !! id fact) s) by done.
  destruct (decide _); [done|]. rewrite !bind_unfold.
  assert (∀ b cb s', outcome (when b (notify cb fact) s') = Return tt) as Hwhen.
  { intros [] cb s'; [apply notify_returns|done]. }
  by rewrite !Hwhen.
Qed.

(** With such listeners every tick returns: neither the eviction nor the
    cache accesses of the loop can raise. *)
Lemma process_returns facts s : outcome (process facts s) = Return tt.
Proof.
  destruct (evicted_run facts s) as (c & _ & -> & _).
  generalize (evicted facts s). intros s0. revert s0.
  induction facts as [|g facts IH]; intros s0; [done|].
  rewrite for_each_cons, bind_unfold, process_fact_returns. apply IH.
Qed.

End Returning.

(** ** Claims *)

(** C1.  A fact whose cache entry has no [end_time] and that the snapshot
    now shows with an [end_time]: a tick that returns has called
    [on_fact_stopped] with it once on each listener of the registry, in
    order, and nothing else with it; ticks that follow on the same snapshot
    make no call with it, however many there are.  The fact is taken to be
    the only one of the snapshot with its id. *)
Theorem stopped_fact_notified_once facts fact cached s :
  cache s !! id fact = Some cached → end_time cached = None →
  fact ∈ facts → is_Some (end_time fact) → sole_id fact facts →
  outcome (process facts s) = Return tt →
  calls_for fact (calls (process facts s))
    = dispatched on_fact_stopped fact (_listeners (self s)) ∧
  ∀ n w, calls_for fact
           (calls (run_ticks (replicate n facts)
                     {| self := self (final (process facts s)); world := w |}))
         = [].
Proof.
  intros Hc Hopen Hin Hend Hsole Hret.
  destruct (process_fire fact facts s) as [Hcalls Hcached]; [done..|].
  split.
  - rewrite Hcalls, Hc. by apply expected_stop.
  - intros n w. by apply run_ticks_stable.
Qed.

(** C2.  A fact whose id is not in the cache and that already has an
    [end_time]: a tick that returns has called [on_fact_started] with it on
    each listener and then [on_fact_stopped] with it on each listener. *)
Theorem new_stopped_fact_started_then_stopped facts fact s :
  cache s !! id fact = None →
  fact ∈ facts → is_Some (end_time fact) → sole_id fact facts →
  outcome (process facts s) = Return tt →
  calls_for fact (calls (process facts s))
    = dispatched on_fact_started fact (_listeners (self s))
      ++ dispatched on_fact_stopped fact (_listeners (self s)).
Proof.
  intros Hc Hin Hend Hsole Hret.
  destruct (process_fire fact facts s) as [-> _]; [done..|].
  rewrite Hc. by apply expected_start_stop.
Qed.

(** C3.  A fact whose id is not in the cache and that has no [end_time]: a
    tick that returns has called [on_fact_started] with it on each listener,
    in the order of the registry, and [on_fact_stopped] on none. *)
Theorem new_open_fact_started_only facts fact s :
  cache s !! id fact = None →
  fact ∈ facts → end_time fact = None → sole_id fact facts →
  outcome (process facts s) = Return tt →
  calls_for fact (calls (process facts s))
    = dispatched on_fact_started fact (_listeners (self s)).
Proof.
  intros Hc Hin Hend Hsole Hret.
  destruct (process_fire fact facts s) as [-> _]; [done..|].
  rewrite Hc. by apply expected_start.
Qed.

(** C4.  When the ids of the snapshot are the keys of the cache and every
    fact of the snapshot equals its cache entry, the tick returns, calls no
    listener and leaves the whole state as it was. *)
Theorem unchanged_snapshot_is_silent facts s :
  ids facts = dom (cache s) →
  (∀ fact, fact ∈ facts → cache s !! id fact = Some fact) →
  process facts s = Run (Return tt) s [].
Proof.
  intros Hids Hsame. unfold process.
  rewrite (bind_silent _ _ _ tt s) by (apply cleanup_unchanged; by rewrite Hids).
  by apply loop_skip.
Qed.

(** C5.  For a snapshot with pairwise distinct ids, after a tick that
    returns the keys of the cache are the ids of the snapshot, every fact of
    the snapshot is its own cache entry, and no other id has an entry. *)
Theorem cache_mirrors_snapshot facts s :
  NoDup (id <$> facts) →
  outcome (process facts s) = Return tt →
  dom (cache (final (process facts s))) = ids facts ∧
  (∀ fact, fact ∈ facts →
     cache (final (process facts s)) !! id fact = Some fact) ∧
  (∀ i, i ∉ ids facts → cache (final (process facts s)) !! i = None).
Proof.
  intros Hnd Hret.
  assert (∀ fact, fact ∈ facts →
            cache (final (process facts s)) !! id fact = Some fact) as Hin.
  { intros fact Hfact.
    destruct (process_fire fact facts s) as [_ ?];
      [done|by apply NoDup_ids_sole|done|done]. }
  assert (∀ i, i ∉ ids facts → cache (final (process facts s)) !! i = None)
    as Hout.
  { intros i Hi. destruct (process_unfold facts s) as (c & -> & Hc).
    rewrite loop_cache_other.
    - by rewrite cache_with_cache, Hc, decide_False.
    - intros g Hg Hid. apply Hi, elem_of_ids. by exists g. }
  split; [|done]. apply set_eq. intros i. rewrite elem_of_dom.
  destruct (decide (i ∈ ids facts)) as [Hi|Hi].
  - apply elem_of_ids in Hi as Hg. destruct Hg as (g & Hg & <-).
    by rewrite Hin.
  - rewrite Hout by done. split; [by intros []|done].
Qed.

(** C6.  An id that has a cache entry without [end_time] and that no fact
    of the snapshot carries: the tick removes the entry and makes no call
    with a fact of that id, whether it returns or not. *)
Theorem vanished_fact_dropped_silently facts i cached s :
  cache s !! i = Some cached → end_time cached = None →
  i ∉ ids facts →
  cache (final (process facts s)) !! i = None ∧
  Forall (λ e, id (ev_fact e) ≠ i) (calls (process facts s)).
Proof.
  intros _ _ Hi. destruct (process_unfold facts s) as (c & -> & Hc). split.
  - rewrite loop_cache_other.
    + by rewrite cache_with_cache, Hc, decide_False.
    + intros g Hg Hid. apply Hi, elem_of_ids. by exists g.
  - eapply Forall_impl; [apply loop_calls|].
    intros e He Hid. apply Hi, elem_of_ids. by exists (ev_fact e).
Qed.

(** C7.  A fact of the snapshot that has a cache entry with the same
    presence of [end_time]: a tick that returns makes no call with it, and
    its cache entry is the fact; the registry is as before. *)
Theorem silent_update_is_cached facts fact cached s :
  cache s !! id fact = Some cached →
  (is_Some (end_time fact) ↔ is_Some (end_time cached)) →
  fact ∈ facts → sole_id fact facts →
  outcome (process facts s) = Return tt →
  calls_for fact (calls (process facts s)) = [] ∧
  cache (final (process facts s)) !! id fact = Some fact ∧
  _listeners (self (final (process facts s))) = _listeners (self s).
Proof.
  intros Hc Hsame Hin Hsole Hret.
  destruct (process_fire fact facts s) as [Hcalls Hcached]; [done..|].
  split; [|split; [done|]].
  - rewrite Hcalls, Hc. by apply expected_update.
  - destruct (process_unfold facts s) as (c & -> & _). by rewrite loop_listeners.
Qed.

(** C8.  Registering a listener a second time changes nothing; in a
    registry without repetition the listener then has one entry, and a
    dispatch that returns has called it once. *)
Theorem add_listener_idempotent l b cb fact s :
  NoDup (_listeners b) →
  self s = add_listener l (add_listener l b) →
  outcome (notify cb fact s) = Return tt →
  add_listener l (add_listener l b) = add_listener l b ∧
  length (filter (λ x, x = l) (_listeners (add_listener l (add_listener l b))))
    = 1%nat ∧
  length (filter (λ e, ev_listener e = l) (calls (notify cb fact s))) = 1%nat.
Proof.
  intros Hnd Hs Hret. split; [apply add_listener_twice|].
  assert (length (filter (λ x, x = l)
            (_listeners (add_listener l (add_listener l b)))) = 1%nat) as Hone.
  { rewrite add_listener_twice. apply NoDup_filter_eq_length.
    - by apply add_listener_NoDup.
    - apply add_listener_registered. }
  split; [done|].
  destruct (notify_run cb fact s) as [_ Hcalls]. rewrite Hret in Hcalls.
  by rewrite Hcalls, dispatched_by_listener, Hs.
Qed.

(** C9.  When a call of a listener raises during a tick, the tick raises:
    nothing is called after it, neither the listeners that follow in the
    registry nor anything for the facts that follow in the snapshot, and the
    bridge is left as it was once the facts before that one were done. *)
Theorem listener_exception_aborts_tick facts s pre e post :
  calls (process facts s) = pre ++ e :: post → ev_raised e = true →
  outcome (process facts s) = Raise ∧ post = [] ∧
  ∃ before after ls1 ls2 seen,
    let r0 := for_each before process_fact (evicted facts s) in
    facts = before ++ ev_fact e :: after ∧
    _listeners (self s) = ls1 ++ ev_listener e :: ls2 ∧
    pre = seen ++ dispatched (ev_callback e) (ev_fact e) ls1 ∧
    outcome r0 = Return tt ∧
    self (final (process facts s)) = self (final r0).
Proof.
  intros Hcalls He.
  destruct (process_abort facts s pre e post Hcalls He)
    as (before & after & seen & ls1 & ls2 & rest & Hfacts & Hb & Hf & Hp
        & Hpost & Hpre & Hcf & Hls & Hw & Hself & Hne).
  rewrite Hp. cbn [outcome final]. split; [done|]. split; [done|].
  exists before, after, ls1, ls2,
    (calls (for_each before process_fact (evicted facts s)) ++ seen).
  cbn zeta. by rewrite <- app_assoc.
Qed.

(** C10.  When a call raises while the tick dispatches for a fact (the ids
    of the snapshot being pairwise distinct), the cache entry of that id is
    what it was before the tick, and so is not the fact, while the facts
    before it in the snapshot are cached.  The next tick on the same
    snapshot therefore opens with the same call as the dispatch that was
    aborted, and when it returns it repeats every call of that dispatch. *)
Theorem failed_dispatch_is_retried facts s pre e post :
  NoDup (id <$> facts) →
  calls (process facts s) = pre ++ e :: post → ev_raised e = true →
  let fact := ev_fact e in
  let r1 := process facts s in
  cache (final r1) !! id fact = cache s !! id fact ∧
  cache (final r1) !! id fact ≠ Some fact ∧
  (∃ before after, facts = before ++ fact :: after ∧
     ∀ g, g ∈ before → cache (final r1) !! id g = Some g) ∧
  ∀ w, let r2 := process facts {| self := self (final r1); world := w |} in
    head (signature <$> calls r2)
      = head (signature <$> calls_for fact (calls r1)) ∧
    (outcome r2 = Return tt →
     (signature <$> calls_for fact (calls r1)) `prefix_of` (signature <$> calls r2)).
Proof.
  intros Hnd Hcalls He. cbn zeta.
  destruct (process_abort facts s pre e post Hcalls He)
    as (before & after & seen & ls1 & ls2 & rest & Hfacts & Hb & Hf & Hp
        & Hpost & Hpre & Hcf & Hls & Hw & Hself & Hne).
  cbn zeta in *. set (fact := ev_fact e) in *.
  set (r0 := for_each before process_fact (evicted facts s)) in *.
  rewrite Hfacts, fmap_app, fmap_cons in Hnd.
  apply NoDup_app in Hnd as (Hnd_before & Hfresh & Hnd_after).
  assert (∀ g, g ∈ before → id g ≠ id fact) as Hother.
  { intros g Hg Hid. apply (Hfresh (id g)); [by apply list_elem_of_fmap_2|].
    rewrite Hid. set_solver. }
  assert (cache (final (process facts s)) = cache (final r0)) as Hcache.
  { rewrite Hp. cbn [final]. unfold cache. by rewrite Hself. }
  assert (cache (final r0) !! id fact = cache s !! id fact) as Hkept.
  { unfold r0. rewrite loop_cache_other by done.
    destruct (evicted_run facts s) as (c & -> & _ & Hc).
    rewrite cache_with_cache, Hc, decide_True; [done|].
    apply id_in_ids. rewrite Hfacts. set_solver. }
  assert (∀ g, g ∈ before → cache (final r0) !! id g = Some g) as Hdone.
  { intros g Hg.
    destruct (loop_fire g before (evicted facts s)) as [_ ?];
      [done|by apply NoDup_ids_sole|done|done]. }
  rewrite Hcache. split; [done|]. split; [done|].
  split; [by exists before, after|].
  assert (calls_for fact (calls (process facts s))
          = (seen ++ dispatched (ev_callback e) fact ls1) ++ [e]) as Hmine.
  { rewrite Hp. cbn [calls]. rewrite calls_for_app.
    rewrite (calls_for_other fact (calls r0)).
    - rewrite calls_for_same by apply process_fact_calls.
      by rewrite Hcf, <- app_assoc.
    - eapply Forall_impl; [apply loop_calls|].
      intros x Hx Heq. apply (Hother (ev_fact x)); [done|by rewrite Heq]. }
  rewrite Hmine. intros w.
  set (s2 := {| self := self (final (process facts s)); world := w |}).
  assert (self s2 = self (final r0)) as Hs2.
  { unfold s2. rewrite Hp. cbn [final self]. done. }
  assert (_listeners (self (final r0)) = _listeners (self s)) as Hsame.
  { unfold r0. rewrite loop_listeners.
    by destruct (evicted_run facts s) as (c & -> & _ & _). }
  destruct (process_resumes facts before fact after s2 Hfacts) as [Hall|Hcut].
  { intros g Hg. unfold cache. rewrite Hs2. by apply Hdone. }
  - destruct Hall as [more Hmore]. rewrite Hmore. unfold cache.
    rewrite Hs2, Hsame. fold (cache (final r0)). rewrite Hw.
    rewrite (app_assoc seen). split.
    + rewrite head_more. symmetry. by apply head_cut.
    + intros _. exists (signature <$> rest ++ more).
      by rewrite !fmap_app, !fmap_cons, <- !app_assoc.
  - destruct Hcut as (Hraise & pre2 & x & rest2 & -> & Hwant).
    unfold cache in Hwant. rewrite Hs2, Hsame in Hwant.
    fold (cache (final r0)) in Hwant. rewrite Hw, (app_assoc seen) in Hwant.
    split; [|by rewrite Hraise].
    rewrite (head_cut pre2 x (returning x) rest2) by done.
    rewrite <- Hwant. symmetry. by apply head_cut.
Qed.

(** ** Further properties of the tick *)

(** Every cache entry sits under the id of its fact. *)
Definition keyed (c : gmap Z Fact) : Prop :=
  ∀ i fact, c !! i = Some fact → id fact = i.

(** X1.  The eviction never raises ([del] only meets keys that are there), calls
    no listener, and leaves the cache restricted to the ids of the
    snapshot. *)
Theorem cleanup_restricts_cache facts s :
  cleanup_extraneous_facts_cache_entries facts s
  = Run (Return tt)
        (with_cache (filter (λ kv, kv.1 ∈ ids facts) (cache s)) s) [].
Proof.
  destruct (cleanup_run facts s) as (c & -> & Hc). do 2 f_equal.
  apply map_eq. intros i. rewrite Hc, map_lookup_filter.
  destruct (cache s !! i) as [x|]; cbn.
  - destruct (decide (i ∈ ids facts)).
    + by rewrite option_guard_True.
    + by rewrite option_guard_False.
  - by destruct (decide _).
Qed.

(** X2.  On an empty snapshot the tick returns with an empty cache and has
    called no listener. *)
Theorem process_empty_snapshot s :
  process [] s = Run (Return tt) (with_cache ∅ s) [].
Proof.
  unfold process. rewrite (bind_silent _ _ _ tt (with_cache ∅ s)); [done|].
  rewrite cleanup_restricts_cache. do 2 f_equal.
  apply map_eq. intros i. rewrite lookup_empty. apply map_lookup_filter_None.
  right. intros x _ Hin. cbn in Hin. by apply elem_of_empty in Hin.
Qed.

Lemma process_fact_self fact s :
  self (final (process_fact fact s)) = self s ∨
  self (final (process_fact fact s))
    = set_cache (<[id fact:=fact]> (cache s)) (self s).
Proof.
  pose proof (process_fact_run fact s) as Hr. cbn zeta in Hr.
  destruct (outcome (process_fact fact s)) as [[]|].
  - right. by destruct Hr as [_ ->].
  - left. by destruct Hr as [-> _].
Qed.

(** X3.  Whatever its outcome, a tick changes nothing of the bridge but the
    cache: the registry and [save_passwords] are as before. *)
Theorem process_changes_cache_only facts s :
  self (final (process facts s))
  = set_cache (cache (final (process facts s))) (self s).
Proof.
  destruct (evicted_run facts s) as (c & Hev & -> & _).
  assert (∀ s', self s' = set_cache (cache s') (self s) →
            self (final (for_each facts process_fact s'))
            = set_cache (cache (final (for_each facts process_fact s'))) (self s))
    as Hloop.
  { intros s' Hs'.
    apply (for_each_preserves
             (λ s1, self s1 = set_cache (cache s1) (self s)) (λ _, True));
      [|done].
    intros g s1 _ Hs1. split; [|by apply Forall_true].
    unfold cache at 1.
    destruct (process_fact_self g s1) as [-> | ->]; [done|].
    rewrite Hs1. done. }
  apply Hloop. by rewrite Hev.
Qed.

(** X4.  After a tick, returned or aborted, the cache holds no id that the
    snapshot does not have. *)
Theorem process_leaves_no_stale_id facts s :
  dom (cache (final (process facts s))) ⊆ ids facts.
Proof.
  destruct (evicted_run facts s) as (c & Hev & -> & Hc).
  apply (for_each_preserves (λ s1, dom (cache s1) ⊆ ids facts) (λ _, True)
           facts process_fact).
  - intros g s1 Hg Hs1. split; [|by apply Forall_true].
    unfold cache at 1.
    destruct (process_fact_self g s1) as [-> | ->]; [done|]. cbn.
    rewrite dom_insert_L. apply union_least; [|done].
    apply singleton_subseteq_l. by apply id_in_ids.
  - rewrite Hev, cache_with_cache. intros i [x Hi]%elem_of_dom.
    rewrite Hc in Hi. by destruct (decide (i ∈ ids facts)).
Qed.

(** X5.  A tick keeps every cache entry under the id of its fact. *)
Theorem process_keeps_cache_keyed facts s :
  keyed (cache s) → keyed (cache (final (process facts s))).
Proof.
  intros Hkeyed. destruct (evicted_run facts s) as (c & Hev & -> & Hc).
  apply (for_each_preserves (λ s1, keyed (cache s1)) (λ _, True)
           facts process_fact).
  - intros g s1 _ Hs1. split; [|by apply Forall_true].
    unfold cache at 1.
    destruct (process_fact_self g s1) as [-> | ->]; [done|]. cbn.
    intros i fact. destruct (decide (i = id g)) as [->|Hne].
    + rewrite lookup_insert_eq. by intros [= ->].
    + rewrite lookup_insert_ne by done. apply Hs1.
  - rewrite Hev, cache_with_cache. intros i fact. rewrite Hc.
    destruct (decide _); [apply Hkeyed|done].
Qed.

Lemma elem_of_concat {A} (x : A) (xss : list (list A)) :
  x ∈ concat xss → ∃ xs, x ∈ xs ∧ xs ∈ xss.
Proof.
  induction xss as [|xs xss IH]; cbn; [by intros ?%elem_of_nil|].
  intros [Hx|Hx]%elem_of_app.
  - exists xs. split; [done|apply list_elem_of_here].
  - destruct (IH Hx) as (ys & ? & ?). exists ys.
    split; [done|by apply list_elem_of_further].
Qed.

Lemma elem_of_expected e cached fact ls :
  e ∈ expected cached fact ls →
  ev_fact e = fact ∧ ev_listener e ∈ ls ∧ ev_callback e ∈ due cached fact.
Proof.
  unfold expected. intros (es & He & Hes)%elem_of_concat.
  apply list_elem_of_fmap in Hes as (cb & -> & Hcb).
  apply list_elem_of_fmap in He as (l & -> & Hl). done.
Qed.

Lemma due_started cached fact :
  on_fact_started ∈ due cached fact → cached = None.
Proof.
  unfold due. destruct (decide _); [by intros ?%elem_of_nil|].
  destruct cached as [c|]; [|done]. cbn.
  destruct (_ && _); [|by intros ?%elem_of_nil].
  by intros ?%list_elem_of_singleton.
Qed.

Lemma due_stopped cached fact :
  on_fact_stopped ∈ due cached fact →
  is_Some (end_time fact) ∧
  ∀ c, cached = Some c → end_time c = None ∧ c ≠ fact.
Proof.
  unfold due. destruct (decide _) as [|Hne]; [by intros ?%elem_of_nil|].
  intros Hin. assert (truthy (end_time fact) = true ∧
    from_option (λ c, truthy (end_time c)) false cached = false) as [Hf Hc].
  { destruct (truthy (end_time fact)), (from_option _ false cached);
      try done; cbn in Hin.
    all: destruct cached; cbn in Hin;
      repeat (apply elem_of_cons in Hin as [Hin|Hin]; [done|]);
      by apply elem_of_nil in Hin. }
  split.
  - destruct (end_time fact); [by eexists|done].
  - intros c ->. cbn in Hc. split; [by destruct (end_time c)|congruence].
Qed.

(** Each call of [process_fact], returned or raised, is one of those that
    the cache entry called for. *)
Lemma process_fact_calls_expected fact s e :
  e ∈ calls (process_fact fact s) →
  returning e ∈ expected (cache s !! id fact) fact (_listeners (self s)).
Proof.
  pose proof (process_fact_run fact s) as Hr. cbn zeta in Hr.
  pose proof (expected_shape (cache s !! id fact) fact (_listeners (self s)))
    as Hq.
  assert (∀ x, x ∈ expected (cache s !! id fact) fact (_listeners (self s)) →
               returning x = x) as Hsame.
  { intros x Hx. eapply Forall_forall in Hq as [_ Hx']; [|exact Hx].
    unfold quiet in Hx'. destruct x. cbn in *. by subst. }
  destruct (outcome (process_fact fact s)) as [[]|].
  - destruct Hr as [-> _]. intros He. by rewrite Hsame.
  - destruct Hr as (_ & _ & pre & x & rest & -> & _ & Hw).
    rewrite Hw in *. intros [He|He%list_elem_of_singleton]%elem_of_app.
    + rewrite Hsame; apply elem_of_app; by left.
    + subst e. apply elem_of_app. right. apply list_elem_of_here.
Qed.

(** X6.  What a tick never does: it calls only listeners of the registry and
    only with facts of the snapshot, [on_fact_stopped] only with a fact that
    has an [end_time], and [on_fact_started] only with a fact whose id had no
    cache entry when the tick began. *)
Theorem process_calls_are_justified facts s :
  Forall (λ e,
      ev_fact e ∈ facts ∧ ev_listener e ∈ _listeners (self s) ∧
      (ev_callback e = on_fact_stopped → is_Some (end_time (ev_fact e))) ∧
      (ev_callback e = on_fact_started → cache s !! id (ev_fact e) = None))
    (calls (process facts s)).
Proof.
  destruct (evicted_run facts s) as (c & Hev & -> & Hc).
  apply (for_each_preserves
           (λ s1, _listeners (self s1) = _listeners (self s) ∧
                  ∀ i, i ∈ ids facts → cache s1 !! i = None → cache s !! i = None)
           _ facts process_fact).
  - intros g s1 Hg [Hls Hgrown]. split.
    + split; [by rewrite process_fact_listeners|].
      intros i Hi. destruct (decide (i = id g)) as [->|Hne].
      * unfold cache at 1.
        destruct (process_fact_self g s1) as [-> | ->]; [by apply Hgrown|].
        cbn. by rewrite lookup_insert_eq.
      * rewrite process_fact_cache_other by done. by apply Hgrown.
    + apply Forall_forall. intros e He.
      apply process_fact_calls_expected, elem_of_expected in He
        as (Hfact & Hl & Hcb).
      cbn in Hfact, Hl, Hcb. rewrite Hfact, Hls in *.
      split; [done|]. split; [done|]. split.
      * intros Hstop. rewrite Hstop in Hcb. by apply due_stopped in Hcb as [? _].
      * intros Hstart. rewrite Hstart in Hcb. apply due_started in Hcb.
        apply Hgrown; [by apply id_in_ids|done].
  - rewrite Hev. split; [done|]. intros i Hi. rewrite cache_with_cache, Hc.
    by rewrite decide_True.
Qed.

Lemma expected_closed cached fact ls :
  is_Some (end_time cached) → expected (Some cached) fact ls = [].
Proof.
  intros [t Ht]. unfold expected, due. destruct (decide _); [done|].
  cbn. rewrite Ht. cbn. by rewrite andb_false_r.
Qed.

Lemma loop_silent fact facts s :
  sole_id fact facts →
  expected (cache s !! id fact) fact (_listeners (self s)) = [] →
  calls_for fact (calls (for_each facts process_fact s)) = [].
Proof.
  revert s. induction facts as [|g facts IH]; intros s Hsole Hnone; [done|].
  rewrite for_each_cons, bind_unfold.
  destruct (decide (g = fact)) as [->|Hne].
  - pose proof (process_fact_run fact s) as Hr. cbn zeta in Hr.
    rewrite Hnone in Hr.
    destruct (outcome (process_fact fact s)) as [[]|] eqn:E; cbn [calls].
    + destruct Hr as [Hcalls _]. rewrite calls_for_app, Hcalls.
      by destruct (loop_stable fact facts (final (process_fact fact s))) as [-> _];
        [eapply sole_id_cons|apply process_fact_cached|].
    + destruct Hr as (_ & _ & pre & x & rest & _ & _ & Hw). by destruct pre.
  - assert (calls_for fact (calls (process_fact g s)) = []) as Hg
      by by apply process_fact_calls_other.
    destruct (outcome (process_fact g s)) as [[]|]; cbn [calls]; [|done].
    rewrite calls_for_app, Hg. apply IH; [by eapply sole_id_cons|].
    rewrite process_fact_listeners, process_fact_cache_other; [done|].
    intros Hid. apply Hne. apply Hsole; [apply list_elem_of_here|done].
Qed.

(** X7.  A fact whose cache entry has an [end_time] is never reported again,
    whatever the snapshot now shows for it, not even when it has been
    reopened and has no [end_time] any more.  The fact is taken to be the
    only one of the snapshot with its id. *)
Theorem closed_fact_never_reported facts fact cached s :
  cache s !! id fact = Some cached → is_Some (end_time cached) →
  fact ∈ facts → sole_id fact facts →
  calls_for fact (calls (process facts s)) = [].
Proof.
  intros Hc Hclosed Hin Hsole.
  destruct (process_keeps facts s (id fact)) as (c & -> & Hkept);
    [by apply id_in_ids|].
  apply loop_silent; [done|].
  rewrite cache_with_cache, Hkept, Hc. by apply expected_closed.
Qed.

Lemma process_fact_returned fact s :
  outcome (process_fact fact s) = Return tt →
  calls (process_fact fact s)
    = expected (cache s !! id fact) fact (_listeners (self s)) ∧
  cache (final (process_fact fact s)) = <[id fact:=fact]> (cache s).
Proof.
  intros E. pose proof (process_fact_run fact s) as Hr. cbn zeta in Hr.
  rewrite E in Hr. destruct Hr as [-> Hs]. split; [done|].
  unfold cache at 1. by rewrite Hs.
Qed.

Lemma loop_returned facts s :
  outcome (for_each facts process_fact s) = Return tt →
  cache (final (for_each facts process_fact s))
    = foldl (λ c fact, <[id fact:=fact]> c) (cache s) facts ∧
  (NoDup (id <$> facts) →
   calls (for_each facts process_fact s)
     = concat ((λ fact, expected (cache s !! id fact) fact (_listeners (self s)))
               <$> facts)).
Proof.
  revert s. induction facts as [|g facts IH]; intros s; [done|].
  rewrite for_each_cons, bind_unfold.
  destruct (outcome (process_fact g s)) as [[]|] eqn:Eg; cbn [outcome final calls];
    [|done].
  intros Hret. destruct (process_fact_returned g s Eg) as [Hcalls Hcache].
  destruct (IH _ Hret) as [IHcache IHcalls]. split.
  - rewrite IHcache, Hcache. done.
  - intros [Hg Hnd]%NoDup_cons. rewrite IHcalls, Hcalls by done.
    cbn [fmap list_fmap concat]. f_equal. f_equal.
    apply list_fmap_ext. intros _ fact Hfact%list_elem_of_lookup_2.
    rewrite process_fact_listeners, process_fact_cache_other; [done|].
    intros Hid. apply Hg. rewrite <- Hid. by apply list_elem_of_fmap_2.
Qed.

(** X8.  The whole trace of a returning tick on a snapshot with pairwise
    distinct ids: fact after fact in the order of the snapshot, the calls
    that the fact's cache entry from before the tick called for. *)
Theorem process_trace facts s :
  NoDup (id <$> facts) →
  outcome (process facts s) = Return tt →
  calls (process facts s)
  = concat ((λ fact, expected (cache s !! id fact) fact (_listeners (self s)))
            <$> facts).
Proof.
  intros Hnd. destruct (evicted_run facts s) as (c & Hev & -> & Hc).
  intros Hret. destruct (loop_returned facts _ Hret) as [_ ->]; [|done].
  f_equal. apply list_fmap_ext. intros _ fact Hfact%list_elem_of_lookup_2.
  rewrite Hev, cache_with_cache, Hc.
  by rewrite decide_True by by apply id_in_ids.
Qed.

Lemma foldl_insert_union (facts : list Fact) (c : gmap Z Fact) :
  foldl (λ c fact, <[id fact:=fact]> c) c facts = facts_by_id facts ∪ c.
Proof.
  unfold facts_by_id. revert c. induction facts as [|g facts IH]; intros c.
  - cbn. by rewrite (left_id_L ∅ (∪)).
  - cbn [foldl]. rewrite IH, (IH (<[id g:=g]> ∅)).
    by rewrite <- (assoc_L (∪)), <- insert_union_l, (left_id_L ∅ (∪)).
Qed.

Lemma dom_facts_by_id facts : dom (facts_by_id facts) = ids facts.
Proof.
  unfold facts_by_id, ids.
  assert (∀ c : gmap Z Fact,
            dom (foldl (λ c fact, <[id fact:=fact]> c) c facts)
            = list_to_set (id <$> facts) ∪ dom c) as Hgen.
  { induction facts as [|g facts IH]; intros c; cbn.
    - by rewrite (left_id_L ∅ (∪)).
    - rewrite IH, dom_insert_L.
      by rewrite (assoc_L (∪)), (comm_L (∪) _ {[id g]}). }
  rewrite Hgen, dom_empty_L. by rewrite (right_id_L ∅ (∪)).
Qed.

(** X9.  A tick that returns leaves the cache that [run] would seed from the same
    snapshot, [{fact.id: fact for fact in facts}], whatever the cache was
    and also when facts share an id. *)
Theorem process_rebuilds_cache facts s :
  outcome (process facts s) = Return tt →
  cache (final (process facts s)) = facts_by_id facts.
Proof.
  destruct (evicted_run facts s) as (c & Hev & -> & Hc). intros Hret.
  destruct (loop_returned facts _ Hret) as [-> _].
  rewrite foldl_insert_union, Hev, cache_with_cache.
  apply map_eq. intros i. destruct (decide (i ∈ ids facts)) as [Hi|Hi].
  - apply lookup_union_l'. apply elem_of_dom. by rewrite dom_facts_by_id.
  - assert (facts_by_id facts !! i = None) as Hnone
      by (apply not_elem_of_dom; by rewrite dom_facts_by_id).
    rewrite lookup_union_r, Hnone, Hc by done. by rewrite decide_False.
Qed.

Lemma facts_by_id_lookup fact facts :
  NoDup (id <$> facts) → fact ∈ facts →
  facts_by_id facts !! id fact = Some fact.
Proof.
  unfold facts_by_id. intros Hnd Hin.
  assert (∀ c : gmap Z Fact,
    foldl (λ c fact, <[id fact:=fact]> c) c facts !! id fact = Some fact)
    as Hgen; [|apply Hgen].
  induction facts as [|g facts IH]; intros c; [by apply elem_of_nil in Hin|].
  apply NoDup_cons in Hnd as [Hg Hnd]. cbn [foldl].
  apply elem_of_cons in Hin as [->|Hin]; [|by apply IH].
  rewrite foldl_insert_union. rewrite lookup_union_r.
  - apply lookup_insert_eq.
  - apply not_elem_of_dom. rewrite dom_facts_by_id. intros Hid. apply Hg.
    apply elem_of_ids in Hid as (h & Hh & <-). by apply list_elem_of_fmap_2.
Qed.

(** X10.  The first tick of [run]: when the snapshot is still the one the cache
    was seeded from, and its ids are pairwise distinct, no listener is
    called and nothing changes. *)
Theorem seeded_cache_is_silent facts s :
  NoDup (id <$> facts) →
  let seeded := with_cache (facts_by_id facts) s in
  process facts seeded = Run (Return tt) seeded [].
Proof.
  intros Hnd seeded. unfold process.
  rewrite (bind_silent _ _ _ tt seeded).
  - apply loop_skip. intros fact Hfact. by apply facts_by_id_lookup.
  - apply cleanup_unchanged. unfold seeded.
    by rewrite cache_with_cache, dom_facts_by_id.
Qed.

Lemma length_expected cached fact ls :
  (length (expected cached fact ls) ≤ 2 * length ls)%nat.
Proof.
  unfold expected.
  assert (length (due cached fact) ≤ 2)%nat as Hdue.
  { unfold due. destruct (decide _); [cbn; lia|].
    destruct cached, (_ && _); cbn; lia. }
  revert Hdue. generalize (due cached fact). intros cbs.
  assert (length (concat ((λ cb, dispatched cb fact ls) <$> cbs))
          = (length cbs * length ls)%nat) as ->.
  { induction cbs as [|cb cbs IH]; [done|]. cbn.
    rewrite length_app, IH. unfold dispatched. by rewrite length_fmap. }
  nia.
Qed.

Lemma length_process_fact fact s :
  (length (calls (process_fact fact s)) ≤ 2 * length (_listeners (self s)))%nat.
Proof.
  pose proof (process_fact_run fact s) as Hr. cbn zeta in Hr.
  pose proof (length_expected (cache s !! id fact) fact (_listeners (self s)))
    as Hlen.
  destruct (outcome (process_fact fact s)) as [[]|].
  - by destruct Hr as [-> _].
  - destruct Hr as (_ & _ & pre & x & rest & -> & _ & Hw).
    rewrite Hw in Hlen. rewrite !length_app in *. cbn in *. lia.
Qed.

(** X11.  A tick makes at most two calls per listener and fact of the snapshot. *)
Theorem process_call_bound facts s :
  (length (calls (process facts s))
   ≤ 2 * length facts * length (_listeners (self s)))%nat.
Proof.
  destruct (evicted_run facts s) as (c & Hev & -> & _).
  assert (_listeners (self (evicted facts s)) = _listeners (self s)) as <-
    by by rewrite Hev.
  generalize (evicted facts s). clear Hev. intros s0. revert s0.
  induction facts as [|g facts IH]; intros s0; [cbn; lia|].
  rewrite for_each_cons, bind_unfold.
  pose proof (length_process_fact g s0) as Hg.
  destruct (outcome (process_fact g s0)) as [[]|]; cbn [calls length]; [|nia].
  specialize (IH (final (process_fact g s0))).
  rewrite process_fact_listeners in IH. rewrite length_app. nia.
Qed.

(** X12.  After a tick that returned, another tick on the same snapshot (ids
    pairwise distinct), in whatever world, calls no listener and changes
    nothing. *)
Theorem process_twice_is_silent facts s w :
  NoDup (id <$> facts) →
  outcome (process facts s) = Return tt →
  let s' := {| self := self (final (process facts s)); world := w |} in
  process facts s' = Run (Return tt) s' [].
Proof.
  intros Hnd Hret s'.
  assert (cache s' = facts_by_id facts) as Hcache
    by by apply process_rebuilds_cache.
  unfold process. rewrite (bind_silent _ _ _ tt s').
  - apply loop_skip. intros fact Hfact. rewrite Hcache.
    by apply facts_by_id_lookup.
  - apply cleanup_unchanged. by rewrite Hcache, dom_facts_by_id.
Qed.

(** [add_listener] for each listener of a list, in order. *)
Definition register_all (listeners : list Listener) (b : HamsterBridge)
  : HamsterBridge :=
  foldl (λ b l, add_listener l b) b listeners.

(** X13.  The registry of a fresh bridge after a sequence of registrations: the
    sequence itself, each listener at its first registration only. *)
Theorem registry_keeps_first_registrations save (ls : list Listener) :
  _listeners (register_all ls (__init__ save))
  = reverse (remove_dups (reverse ls)).
Proof.
  unfold register_all. induction ls as [|l ls IH] using rev_ind; [done|].
  rewrite foldl_snoc, reverse_snoc. cbn [remove_dups].
  set (b := foldl (λ b l, add_listener l b) (__init__ save) ls) in *.
  assert (l ∈ _listeners b ↔ l ∈ reverse ls) as Hiff
    by by rewrite IH, elem_of_reverse, elem_of_remove_dups.
  unfold add_listener.
  destruct (decide (l ∈ _listeners b)) as [Hin|Hin];
    destruct (decide_rel elem_of l (reverse ls)) as [Hin'|Hin'];
    try tauto; try done.
  cbn [_listeners]. by rewrite IH, reverse_cons.
Qed.

End Bridge.

Arguments Run {Listener World A} _ _ _.
Arguments outcome {Listener World A} _.
Arguments final {Listener World A} _.
Arguments calls {Listener World A} _.

(** * A bridge with two listeners

    Listeners are numbered; the world counts the calls that returned. *)

(** Both listeners return. *)
Definition both_return (l : nat) (cb : callback) (fact : Fact) (w : nat)
  : result unit * nat :=
  (Return tt, S w).

(** Listener 7 cannot log time: its [on_fact_stopped] raises. *)
Definition second_raises (l : nat) (cb : callback) (fact : Fact) (w : nat)
  : result unit * nat :=
  match cb with
  | on_fact_started => (Return tt, S w)
  | on_fact_stopped => if Nat.eqb l 7 then (Raise, w) else (Return tt, S w)
  end.

Definition coding : Fact :=
  mkFact 1 "coding" "work" "" ["4512"] 1000 None.
Definition coding_done : Fact :=
  mkFact 1 "coding" "work" "" ["4512"] 1000 (Some 4600).
Definition coding_retagged : Fact :=
  mkFact 1 "coding" "work" "" ["4513"] 1000 None.
Definition review_done : Fact :=
  mkFact 2 "review" "work" "" [] 4600 (Some 5200).
Definition lunch : Fact :=
  mkFact 3 "lunch" "break" "" [] 5200 None.

Definition two_listeners : @HamsterBridge nat :=
  add_listener 7%nat (add_listener 5%nat (__init__ false)).

(** The bridge after [run] has seeded the cache with [coding]. *)
Definition tracking : @state nat nat :=
  {| self := set_cache (facts_by_id [coding]) two_listeners; world := 0%nat |}.

Example tracking_listeners : _listeners (self tracking) = [5%nat; 7%nat].
Proof. reflexivity. Qed.

Example tick_stop :
  calls (process both_return [coding_done] tracking)
  = [Event 5%nat on_fact_stopped coding_done false;
     Event 7%nat on_fact_stopped coding_done false].
Proof. reflexivity. Qed.

Example tick_new_stopped :
  calls (process both_return [coding; review_done] tracking)
  = [Event 5%nat on_fact_started review_done false;
     Event 7%nat on_fact_started review_done false;
     Event 5%nat on_fact_stopped review_done false;
     Event 7%nat on_fact_stopped review_done false].
Proof. reflexivity. Qed.

Example tick_vanished :
  process both_return [] tracking
  = Run (Return tt) (with_cache ∅ tracking) [].
Proof. reflexivity. Qed.

Example tick_aborted :
  calls (process second_raises [coding_done; lunch] tracking)
  = [Event 5%nat on_fact_stopped coding_done false;
     Event 7%nat on_fact_stopped coding_done true]
  ∧ outcome (process second_raises [coding_done; lunch] tracking) = Raise
  ∧ cache (final (process second_raises [coding_done; lunch] tracking))
    = {[1 := coding]}.
Proof. by vm_compute. Qed.

(** Two facts with one id: the second, though stopped, is not reported. *)
Example tick_shared_id :
  let twice := mkFact 1 "coding" "work" "" ["4512"] 1000 (Some 4700) in
  calls_for twice (calls (process both_return [coding_done; twice] tracking))
  = [].
Proof. reflexivity. Qed.

(** ** The claims on this bridge *)

Lemma sole_id_singleton (fact : Fact) : sole_id fact [fact].
Proof. intros g Hg _. by apply list_elem_of_singleton in Hg. Defined.

Lemma sole_id_distinct (fact : Fact) (facts : list Fact) :
  bool_decide (NoDup (id <$> facts)) = true →
  bool_decide (fact ∈ facts) = true → sole_id fact facts.
Proof.
  intros Hnd%bool_decide_eq_true Hin%bool_decide_eq_true.
  by apply NoDup_ids_sole.
Defined.

Lemma stopped_fact_notified_once_witness :
  calls_for coding_done (calls (process both_return [coding_done] tracking))
    = dispatched on_fact_stopped coding_done [5%nat; 7%nat] ∧
  ∀ n w, calls_for coding_done
           (calls (run_ticks both_return (replicate n [coding_done])
                     {| self := self (final (process both_return [coding_done]
                                               tracking));
                        world := w |}))
         = [].
Proof.
  apply (stopped_fact_notified_once both_return [coding_done] coding_done
           coding tracking).
  - reflexivity.
  - reflexivity.
  - apply list_elem_of_here.
  - exists 4600. reflexivity.
  - apply sole_id_singleton.
  - reflexivity.
Defined.

Lemma new_stopped_fact_started_then_stopped_witness :
  calls_for review_done
    (calls (process both_return [coding; review_done] tracking))
  = dispatched on_fact_started review_done [5%nat; 7%nat]
    ++ dispatched on_fact_stopped review_done [5%nat; 7%nat].
Proof.
  apply (new_stopped_fact_started_then_stopped both_return
           [coding; review_done] review_done tracking).
  - reflexivity.
  - apply list_elem_of_further, list_elem_of_here.
  - exists 5200. reflexivity.
  - apply sole_id_distinct; reflexivity.
  - reflexivity.
Defined.

Lemma new_open_fact_started_only_witness :
  calls_for lunch (calls (process both_return [coding; lunch] tracking))
  = dispatched on_fact_started lunch [5%nat; 7%nat].
Proof.
  apply (new_open_fact_started_only both_return [coding; lunch] lunch tracking).
  - reflexivity.
  - apply list_elem_of_further, list_elem_of_here.
  - reflexivity.
  - apply sole_id_distinct; reflexivity.
  - reflexivity.
Defined.

Lemma unchanged_snapshot_is_silent_witness :
  process both_return [coding] tracking = Run (Return tt) tracking [].
Proof.
  apply (unchanged_snapshot_is_silent both_return [coding] tracking).
  - vm_compute. reflexivity.
  - intros fact Hin. apply list_elem_of_singleton in Hin. subst fact.
    reflexivity.
Defined.

Lemma cache_mirrors_snapshot_witness :
  let after := final (process both_return [coding_done; lunch] tracking) in
  dom (cache after) = ids [coding_done; lunch] ∧
  (∀ fact, fact ∈ [coding_done; lunch] → cache after !! id fact = Some fact) ∧
  (∀ i, i ∉ ids [coding_done; lunch] → cache after !! i = None).
Proof.
  apply (cache_mirrors_snapshot both_return [coding_done; lunch] tracking).
  - apply (bool_decide_unpack _). vm_compute. exact I.
  - reflexivity.
Defined.

Lemma vanished_fact_dropped_silently_witness :
  cache (final (process both_return [lunch] tracking)) !! 1 = None ∧
  Forall (λ e, id (ev_fact e) ≠ 1) (calls (process both_return [lunch] tracking)).
Proof.
  apply (vanished_fact_dropped_silently both_return [lunch] 1 coding tracking).
  - reflexivity.
  - reflexivity.
  - apply (proj1 (bool_decide_eq_false _)). reflexivity.
Defined.

Lemma silent_update_is_cached_witness :
  let r := process both_return [coding_retagged] tracking in
  calls_for coding_retagged (calls r) = [] ∧
  cache (final r) !! 1 = Some coding_retagged ∧
  _listeners (self (final r)) = [5%nat; 7%nat].
Proof.
  apply (silent_update_is_cached both_return [coding_retagged] coding_retagged
           coding tracking).
  - reflexivity.
  - split; intros [t Ht]; discriminate Ht.
  - apply list_elem_of_here.
  - apply sole_id_singleton.
  - reflexivity.
Defined.

Lemma add_listener_idempotent_witness :
  let b := add_listener 5%nat (__init__ false) in
  let s := {| self := add_listener 7%nat (add_listener 7%nat b); world := 0%nat |} in
  add_listener 7%nat (add_listener 7%nat b) = add_listener 7%nat b ∧
  length (filter (λ x, x = 7%nat)
            (_listeners (add_listener 7%nat (add_listener 7%nat b)))) = 1%nat ∧
  length (filter (λ e, ev_listener e = 7%nat)
            (calls (notify both_return on_fact_started lunch s))) = 1%nat.
Proof.
  apply (add_listener_idempotent both_return 7%nat
           (add_listener 5%nat (__init__ false)) on_fact_started lunch).
  - apply (bool_decide_unpack _). vm_compute. exact I.
  - reflexivity.
  - reflexivity.
Defined.

Lemma listener_exception_aborts_tick_witness :
  let facts := [coding_done; lunch] in
  let e := Event 7%nat on_fact_stopped coding_done true in
  outcome (process second_raises facts tracking) = Raise ∧
  @nil (@event nat) = [] ∧
  ∃ before after ls1 ls2 seen,
    let r0 := for_each before (process_fact second_raises)
                (evicted facts tracking) in
    facts = before ++ ev_fact e :: after ∧
    _listeners (self tracking) = ls1 ++ ev_listener e :: ls2 ∧
    [Event 5%nat on_fact_stopped coding_done false]
      = seen ++ dispatched (ev_callback e) (ev_fact e) ls1 ∧
    outcome r0 = Return tt ∧
    self (final (process second_raises facts tracking)) = self (final r0).
Proof.
  apply (listener_exception_aborts_tick second_raises [coding_done; lunch]
           tracking [Event 5%nat on_fact_stopped coding_done false]
           (Event 7%nat on_fact_stopped coding_done true) []).
  - reflexivity.
  - reflexivity.
Defined.

Lemma failed_dispatch_is_retried_witness :
  let facts := [lunch; coding_done] in
  let r1 := process second_raises facts tracking in
  cache (final r1) !! 1 = cache tracking !! 1 ∧
  cache (final r1) !! 1 ≠ Some coding_done ∧
  (∃ before after, facts = before ++ coding_done :: after ∧
     ∀ g, g ∈ before → cache (final r1) !! id g = Some g) ∧
  ∀ w, let r2 := process second_raises facts
                   {| self := self (final r1); world := w |} in
    head (signature <$> calls r2)
      = head (signature <$> calls_for coding_done (calls r1)) ∧
    (outcome r2 = Return tt →
     (signature <$> calls_for coding_done (calls r1))
       `prefix_of` (signature <$> calls r2)).
Proof.
  apply (failed_dispatch_is_retried second_raises [lunch; coding_done] tracking
           [Event 5%nat on_fact_started lunch false;
            Event 7%nat on_fact_started lunch false;
            Event 5%nat on_fact_stopped coding_done false]
           (Event 7%nat on_fact_stopped coding_done true) []).
  - apply (bool_decide_unpack _). vm_compute. exact I.
  - reflexivity.
  - reflexivity.
Defined.

(** ** Further properties on this bridge *)

Lemma process_keeps_cache_keyed_witness :
  keyed (cache (final (process both_return [coding_done; lunch] tracking))).
Proof.
  apply (process_keeps_cache_keyed both_return [coding_done; lunch] tracking).
  intros i fact Hi.
  destruct (decide (i = 1)) as [->|Hne].
  - vm_compute in Hi. injection Hi as <-. reflexivity.
  - unfold tracking, cache in Hi. cbn in Hi.
    rewrite lookup_insert_ne in Hi by done. discriminate Hi.
Defined.

Lemma closed_fact_never_reported_witness :
  let stopped := {| self := set_cache (facts_by_id [coding_done]) two_listeners;
                    world := 0%nat |} in
  calls_for coding_retagged (calls (process both_return [coding_retagged] stopped))
  = [].
Proof.
  apply (closed_fact_never_reported both_return [coding_retagged]
           coding_retagged coding_done).
  - reflexivity.
  - exists 4600. reflexivity.
  - apply list_elem_of_here.
  - apply sole_id_singleton.
Defined.

Lemma process_trace_witness :
  calls (process both_return [coding_done; review_done; lunch] tracking)
  = concat ((λ fact, expected (cache tracking !! id fact) fact [5%nat; 7%nat])
            <$> [coding_done; review_done; lunch]).
Proof.
  apply (process_trace both_return [coding_done; review_done; lunch] tracking).
  - apply (bool_decide_unpack _). vm_compute. exact I.
  - reflexivity.
Defined.

Lemma process_rebuilds_cache_witness :
  let twice := mkFact 1 "coding" "work" "" ["4512"] 1000 (Some 4700) in
  cache (final (process both_return [coding_done; twice; lunch] tracking))
  = facts_by_id [coding_done; twice; lunch].
Proof.
  apply (process_rebuilds_cache both_return). reflexivity.
Defined.

Lemma seeded_cache_is_silent_witness :
  let seeded := with_cache (facts_by_id [coding; review_done]) tracking in
  process both_return [coding; review_done] seeded = Run (Return tt) seeded [].
Proof.
  apply (seeded_cache_is_silent both_return [coding; review_done] tracking).
  apply (bool_decide_unpack _). vm_compute. exact I.
Defined.

Lemma process_twice_is_silent_witness :
  let s' := {| self := self (final (process both_return [coding_done; lunch]
                                      tracking));
               world := 9%nat |} in
  process both_return [coding_done; lunch] s' = Run (Return tt) s' [].
Proof.
  apply (process_twice_is_silent both_return [coding_done; lunch] tracking 9%nat).
  - apply (bool_decide_unpack _). vm_compute. exact I.
  - reflexivity.
Defined.

(** * Merging configurations

    [_combine_configs] of [bridge.py] works on [RawConfigParser] objects of
    the standard library.  The parser is modelled as far as the function
    uses it: its two dictionaries, in insertion order as Python keeps them,
    and the five methods [sections], [add_section], [options], [get] and
    [set] with the exceptions they raise. *)

(** ** Python dictionaries with string keys *)

Definition pydict (V : Type) : Type := list (string * V).

(** [d[k]], [None] for a [KeyError]. *)
Fixpoint dict_get {V} (k : string) (d : pydict V) : option V :=
  match d with
  | [] => None
  | (k', v) :: d' => if decide (k = k') then Some v else dict_get k d'
  end.

(** [d[k] = v]: a key that is there keeps its place, a new one goes last. *)
Fixpoint dict_set {V} (k : string) (v : V) (d : pydict V) : pydict V :=
  match d with
  | [] => [(k, v)]
  | (k', v') :: d' =>
      if decide (k = k') then (k, v) :: d' else (k', v') :: dict_set k v d'
  end.

(** [list(d.keys())] *)
Definition dict_keys {V} (d : pydict V) : list string := d.*1.

(** [d.update(other)] *)
Definition dict_update {V} (d other : pydict V) : pydict V :=
  foldl (λ d kv, dict_set kv.1 kv.2 d) d other.

Module configparser.

(** A value is a string, or [None] for an option without value. *)
Definition value : Type := option string.

Inductive Error :=
  | ValueError
  | DuplicateSectionError
  | NoSectionError
  | NoOptionError.

Definition checked (A : Type) : Type := Error + A.

#[export] Instance checked_ret : MRet checked := λ A, inr.
#[export] Instance checked_bind : MBind checked := λ A B f m,
  match m with inl e => inl e | inr a => f a end.

Record RawConfigParser := mkParser {
  _defaults : pydict value;
  _sections : pydict (pydict value);
}.

Definition default_section : string := "DEFAULT".

Section Methods.

(** [optionxform], the parser's hook that normalises option names
    ([str.lower] unless replaced). *)
Variable optionxform : string → string.

(** [RawConfigParser()] *)
Definition __init__ : RawConfigParser :=
  {| _defaults := []; _sections := [] |}.

Definition sections (self : RawConfigParser) : list string :=
  dict_keys (_sections self).

Definition add_section (self : RawConfigParser) (section : string)
  : checked RawConfigParser :=
  if decide (section = default_section) then inl ValueError
  else if decide (section ∈ dict_keys (_sections self))
  then inl DuplicateSectionError
  else inr {| _defaults := _defaults self;
              _sections := dict_set section [] (_sections self) |}.

Definition options (self : RawConfigParser) (section : string)
  : checked (list string) :=
  match dict_get section (_sections self) with
  | None => inl NoSectionError
  | Some opts => inr (dict_keys (dict_update opts (_defaults self)))
  end.

(** [_unify_values] without [vars]: the section's dictionary, to be looked
    up before the defaults. *)
Definition _unify_values (self : RawConfigParser) (section : string)
  : checked (pydict value) :=
  match dict_get section (_sections self) with
  | Some sectiondict => inr sectiondict
  | None =>
      if decide (section = default_section) then inr []
      else inl NoSectionError
  end.

Definition get (self : RawConfigParser) (section option : string)
  : checked value :=
  sectiondict ← _unify_values self section;
  let option := optionxform option in
  match dict_get option sectiondict with
  | Some value => inr value
  | None =>
      match dict_get option (_defaults self) with
      | Some value => inr value
      | None => inl NoOptionError
      end
  end.

Definition set (self : RawConfigParser) (section option : string)
    (value : value) : checked RawConfigParser :=
  if bool_decide (section = "") || bool_decide (section = default_section)
  then inr {| _defaults := dict_set (optionxform option) value (_defaults self);
              _sections := _sections self |}
  else
    match dict_get section (_sections self) with
    | None => inl NoSectionError
    | Some sectdict =>
        inr {| _defaults := _defaults self;
               _sections := dict_set section
                              (dict_set (optionxform option) value sectdict)
                              (_sections self) |}
    end.

End Methods.
End configparser.

Section Combine.

Import configparser.
Variable optionxform : string → string.

(** [for x in xs: acc = body(acc, x)], stopping at the first exception. *)
Fixpoint for_in {A B} (xs : list B) (body : A → B → checked A) (acc : A)
  : checked A :=
  match xs with
  | [] => inr acc
  | x :: xs' => acc' ← body acc x; for_in xs' body acc'
  end.

Definition _combine_configs (configs : list RawConfigParser)
  : checked RawConfigParser :=
  for_in configs (λ result config,
    for_in (sections config) (λ result section,
      result ← match add_section result section with
               | inl DuplicateSectionError => inr result
               | added => added
               end;
      opts ← options config section;
      for_in opts (λ result option,
        value ← get optionxform config section option;
        set optionxform result section option value) result) result)
    __init__.

End Combine.


(** ** Dictionaries *)

Section Dict.
Context {V : Type}.
Implicit Types (d : pydict V) (k : string) (v : V).

Lemma dict_get_None k d : dict_get k d = None ↔ k ∉ dict_keys d.
Proof.
  induction d as [|[k' v'] d IH]; cbn.
  - split; [intros _; apply not_elem_of_nil|done].
  - destruct (decide (k = k')) as [->|Hne].
    + split; [done|]. intros []. apply list_elem_of_here.
    + rewrite IH, not_elem_of_cons. tauto.
Qed.

Lemma dict_get_Some k v d : dict_get k d = Some v → (k, v) ∈ d.
Proof.
  induction d as [|[k' v'] d IH]; cbn; [done|].
  destruct (decide (k = k')) as [->|Hne].
  - intros [= ->]. apply list_elem_of_here.
  - intros Hd. by apply list_elem_of_further, IH.
Qed.

Lemma dict_get_elem_of k v d :
  NoDup (dict_keys d) → (k, v) ∈ d → dict_get k d = Some v.
Proof.
  induction d as [|[k' v'] d IH]; cbn; [by intros _ ?%elem_of_nil|].
  intros [Hk Hnd]%NoDup_cons [[= -> ->]|Hin]%elem_of_cons.
  - by rewrite decide_True.
  - rewrite decide_False; [by apply IH|].
    intros ->. apply Hk. by apply (list_elem_of_fmap_2 fst) in Hin.
Qed.

Lemma dict_get_set k k' v d :
  dict_get k' (dict_set k v d) = if decide (k' = k) then Some v else dict_get k' d.
Proof.
  induction d as [|[k0 v0] d IH]; cbn.
  - by destruct (decide (k' = k)).
  - destruct (decide (k = k0)) as [->|Hne]; cbn.
    + by destruct (decide (k' = k0)).
    + rewrite IH. destruct (decide (k' = k0)) as [->|]; [|done].
      by rewrite decide_False.
Qed.

Lemma dict_keys_set k v d :
  dict_keys (dict_set k v d)
  = if decide (k ∈ dict_keys d) then dict_keys d else dict_keys d ++ [k].
Proof.
  unfold dict_keys. induction d as [|[k0 v0] d IH]; cbn; [done|].
  destruct (decide (k = k0)) as [->|Hne]; cbn.
  - by rewrite decide_True by apply list_elem_of_here.
  - rewrite IH. destruct (decide (k ∈ d.*1)) as [Hin|Hin].
    + by rewrite decide_True by by apply list_elem_of_further.
    + rewrite decide_False; [done|]. by apply not_elem_of_cons.
Qed.

Lemma dict_set_set k v v' d : dict_set k v (dict_set k v' d) = dict_set k v d.
Proof.
  induction d as [|[k0 v0] d IH]; cbn.
  - by rewrite decide_True.
  - destruct (decide (k = k0)) as [->|Hne]; cbn.
    + by rewrite decide_True.
    + by rewrite decide_False, IH.
Qed.

Lemma dict_set_same k v d : dict_get k d = Some v → dict_set k v d = d.
Proof.
  induction d as [|[k0 v0] d IH]; cbn; [done|].
  destruct (decide (k = k0)) as [->|Hne]; [by intros [= ->]|].
  intros Hd. by rewrite IH.
Qed.

Lemma dict_set_new k v d : k ∉ dict_keys d → dict_set k v d = d ++ [(k, v)].
Proof.
  induction d as [|[k0 v0] d IH]; cbn; [done|].
  intros [Hne Hk]%not_elem_of_cons. by rewrite decide_False, IH.
Qed.

Lemma dict_ext d1 d2 :
  NoDup (dict_keys d1) → dict_keys d1 = dict_keys d2 →
  (∀ k, dict_get k d1 = dict_get k d2) → d1 = d2.
Proof.
  revert d2. induction d1 as [|[k v] d1 IH]; intros [|[k2 v2] d2]; cbn;
    try done.
  intros [Hk Hnd]%NoDup_cons [= <- Hkeys] Hget. f_equal.
  - pose proof (Hget k) as Hk'. rewrite !decide_True in Hk' by done.
    congruence.
  - apply IH; [done|done|]. intros k'. specialize (Hget k').
    destruct (decide (k' = k)) as [->|]; [|done].
    transitivity (@None V); [|symmetry];
      apply dict_get_None; unfold dict_keys; [done|by rewrite <- Hkeys].
Qed.

Lemma dict_get_update k d other :
  NoDup (dict_keys other) →
  dict_get k (dict_update d other)
  = match dict_get k other with Some v => Some v | None => dict_get k d end.
Proof.
  unfold dict_update. revert d.
  induction other as [|[k0 v0] other IH]; intros d; cbn; [done|].
  intros [Hk Hnd]%NoDup_cons. rewrite IH by done.
  destruct (decide (k = k0)) as [->|Hne].
  - assert (dict_get k0 other = None) as -> by by apply dict_get_None.
    by rewrite dict_get_set, decide_True.
  - destruct (dict_get k other); [done|].
    by rewrite dict_get_set, decide_False.
Qed.

Lemma dict_update_fresh d other :
  NoDup (dict_keys (d ++ other)) → dict_update d other = d ++ other.
Proof.
  unfold dict_update. revert d.
  induction other as [|[k0 v0] other IH]; intros d Hnd; cbn.
  - by rewrite app_nil_r.
  - assert (k0 ∉ dict_keys d) as Hk.
    { unfold dict_keys in Hnd. rewrite fmap_app in Hnd.
      apply NoDup_app in Hnd as (_ & Hd & _). intros Hin.
      apply (Hd k0 Hin). apply list_elem_of_here. }
    rewrite dict_set_new by done. rewrite IH; [by rewrite <- app_assoc|].
    by rewrite <- app_assoc.
Qed.

End Dict.

(** ** A dictionary read through to another *)

(** The view that [get] has of a section: its own items first, then the
    defaults that it does not redefine. *)
Definition chain {V} (d defaults : pydict V) : pydict V :=
  d ++ filter (λ kv, kv.1 ∉ dict_keys d) defaults.

Section Chain.
Context {V : Type}.
Implicit Types (d : pydict V) (k : string).

Lemma filter_agree {A} (P Q : A → Prop) `{∀ x, Decision (P x)}
    `{∀ x, Decision (Q x)} (xs : list A) :
  (∀ x, x ∈ xs → (P x ↔ Q x)) → filter P xs = filter Q xs.
Proof.
  induction xs as [|x xs IH]; intros Hiff; [done|].
  assert (filter P xs = filter Q xs) as Hrest.
  { apply IH. intros y Hy. apply Hiff. by apply list_elem_of_further. }
  destruct (decide (P x)) as [HP|HP].
  - rewrite !filter_cons_True, Hrest; [done| |done].
    by apply Hiff; [apply list_elem_of_here|].
  - rewrite !filter_cons_False, Hrest; [done| |done].
    intros HQ. apply HP. by apply Hiff; [apply list_elem_of_here|].
Qed.

Lemma filter_all {A} (P : A → Prop) `{∀ x, Decision (P x)} (xs : list A) :
  Forall P xs → filter P xs = xs.
Proof.
  induction 1 as [|x xs Hx _ IH]; [done|]. by rewrite filter_cons_True, IH.
Qed.

Lemma dict_get_app k d1 d2 :
  dict_get k (d1 ++ d2)
  = match dict_get k d1 with Some v => Some v | None => dict_get k d2 end.
Proof.
  induction d1 as [|[k0 v0] d1 IH]; cbn; [done|].
  by destruct (decide (k = k0)).
Qed.

Lemma dict_keys_chain d defaults :
  dict_keys (chain d defaults)
  = dict_keys d ++ filter (λ k, k ∉ dict_keys d) (dict_keys defaults).
Proof.
  unfold chain, dict_keys. rewrite fmap_app. f_equal.
  induction defaults as [|[k0 v0] defaults IH]; [done|].
  rewrite (fmap_cons fst). cbn [fst].
  destruct (decide (k0 ∉ d.*1)) as [Hk|Hk].
  - rewrite (filter_cons_True _ (k0, v0)), (filter_cons_True _ k0) by done.
    rewrite (fmap_cons fst). cbn [fst]. f_equal. exact IH.
  - by rewrite (filter_cons_False _ (k0, v0)), (filter_cons_False _ k0) by done.
Qed.

Lemma dict_get_chain k d defaults :
  dict_get k (chain d defaults)
  = match dict_get k d with Some v => Some v | None => dict_get k defaults end.
Proof.
  unfold chain. rewrite dict_get_app.
  destruct (dict_get k d) as [v|] eqn:Hd; [done|].
  apply dict_get_None in Hd.
  induction defaults as [|[k0 v0] defaults IH]; [done|].
  destruct (decide (k = k0)) as [->|Hne].
  - rewrite (filter_cons_True _ (k0, v0)) by done. cbn.
    by rewrite !decide_True.
  - cbn [dict_get]. rewrite decide_False by done. rewrite <- IH.
    destruct (decide (k0 ∉ dict_keys d)).
    + rewrite (filter_cons_True _ (k0, v0)) by done. cbn.
      by rewrite decide_False.
    + by rewrite (filter_cons_False _ (k0, v0)) by done.
Qed.

Lemma NoDup_chain d defaults :
  NoDup (dict_keys d) → NoDup (dict_keys defaults) →
  NoDup (dict_keys (chain d defaults)).
Proof.
  intros Hd Hdef. rewrite dict_keys_chain. apply NoDup_app.
  split; [done|]. split; [|by apply NoDup_filter].
  by intros k Hk [Hnot _]%list_elem_of_filter.
Qed.

Lemma dict_keys_update d other :
  NoDup (dict_keys other) →
  dict_keys (dict_update d other)
  = dict_keys d ++ filter (λ k, k ∉ dict_keys d) (dict_keys other).
Proof.
  unfold dict_update. revert d.
  induction other as [|[k0 v0] other IH]; intros d; cbn [foldl].
  { intros _. cbn. by rewrite app_nil_r. }
  cbn [dict_keys fmap list_fmap fst]. fold (dict_keys other).
  intros [Hk Hnd]%NoDup_cons. rewrite IH, dict_keys_set by done. cbn [fst snd].
  destruct (decide (k0 ∈ dict_keys d)) as [Hin|Hin].
  - by rewrite (filter_cons_False _ k0) by tauto.
  - rewrite (filter_cons_True _ k0) by done. rewrite <- app_assoc. cbn.
    do 2 f_equal. apply filter_agree. intros k Hin'.
    rewrite not_elem_of_app, not_elem_of_cons. split; [tauto|].
    intros Hd. split; [done|]. split; [|apply not_elem_of_nil].
    intros ->. by apply Hk.
Qed.

Lemma dict_keys_update_chain d defaults :
  NoDup (dict_keys defaults) →
  dict_keys (dict_update d defaults) = dict_keys (chain d defaults).
Proof. intros Hnd. by rewrite dict_keys_update, dict_keys_chain. Qed.

End Chain.

(** ** Merged parsers *)

Section Merge.

Import configparser.
Variable optionxform : string → string.

(** A parser as the library keeps it: dictionaries without repeated keys,
    option names that [optionxform] has normalised, and no section called
    [DEFAULT].  Section headers of a file are never empty; a section named
    [""] could only come from [add_section("")]. *)
Definition well_formed (c : RawConfigParser) : Prop :=
  NoDup (dict_keys (_sections c)) ∧
  NoDup (dict_keys (_defaults c)) ∧
  Forall (λ k, optionxform k = k) (dict_keys (_defaults c)) ∧
  Forall (λ sd, NoDup (dict_keys sd.2) ∧
                Forall (λ k, optionxform k = k) (dict_keys sd.2))
         (_sections c) ∧
  (default_section ∉ sections c) ∧
  ("" ∉ sections c).

#[global] Instance well_formed_dec c : Decision (well_formed c).
Proof. unfold well_formed. apply _. Defined.

(** What a caller reads from a parser: the value that [get] returns, or
    [None] when it raises [NoSectionError] or [NoOptionError]. *)
Definition read (c : RawConfigParser) (section name : string)
  : option value :=
  match get optionxform c section name with
  | inr value => Some value
  | inl _ => None
  end.

(** The section [section] of [c], written over the one of [result]. *)
Definition put_section (section : string) (items : pydict value)
    (result : RawConfigParser) : RawConfigParser :=
  {| _defaults := _defaults result;
     _sections := dict_set section items (_sections result) |}.

Definition merge_section (c result : RawConfigParser) (section : string)
  : RawConfigParser :=
  match dict_get section (_sections c) with
  | Some d =>
      put_section section
        (dict_update (default [] (dict_get section (_sections result)))
                     (chain d (_defaults c)))
        result
  | None => result
  end.

Definition merge_config (result c : RawConfigParser) : RawConfigParser :=
  foldl (merge_section c) result (sections c).

Lemma bind_inr {A B} (a : A) (f : A → checked B) : (inr a ≫= f) = f a.
Proof. reflexivity. Qed.

Lemma for_in_cons {A B} (x : B) xs (body : A → B → checked A) acc :
  for_in (x :: xs) body acc = (acc' ← body acc x; for_in xs body acc').
Proof. reflexivity. Qed.

Lemma for_in_pure {A B} (xs : list B) (body : A → B → checked A)
    (step : A → B → A) acc :
  (∀ acc x, x ∈ xs → body acc x = inr (step acc x)) →
  for_in xs body acc = inr (foldl step acc xs).
Proof.
  revert acc. induction xs as [|x xs IH]; intros acc Hbody; [done|].
  rewrite for_in_cons, Hbody by apply list_elem_of_here. cbn.
  apply IH. intros acc' y Hy. apply Hbody. by apply list_elem_of_further.
Qed.

Lemma for_in_app {A B} (xs ys : list B) (body : A → B → checked A) acc :
  for_in (xs ++ ys) body acc = (acc' ← for_in xs body acc; for_in ys body acc').
Proof.
  revert acc. induction xs as [|x xs IH]; intros acc; [done|].
  cbn. destruct (body acc x) as [e|acc']; cbn; [done|]. apply IH.
Qed.

(** The innermost loop: copying the options of one section. *)
Lemma copy_options c section (items : pydict value) result old :
  section ≠ "" → section ≠ default_section →
  dict_get section (_sections result) = Some old →
  (∀ k v, (k, v) ∈ items →
     get optionxform c section k = inr v ∧ optionxform k = k) →
  for_in (dict_keys items) (λ result option,
      value ← get optionxform c section option;
      set optionxform result section option value) result
  = inr (put_section section (dict_update old items) result).
Proof.
  intros Hne Hdef. revert result old.
  set (body := λ result option,
         value ← get optionxform c section option;
         set optionxform result section option value).
  induction items as [|[k v] items IH]; intros result old Hold Hitems.
  - cbn. unfold put_section. rewrite dict_set_same by done. by destruct result.
  - destruct (Hitems k v) as [Hget Hk]; [apply list_elem_of_here|].
    assert (body result k
            = inr (put_section section (dict_set k v old) result)) as Hstep.
    { unfold body. rewrite Hget, bind_inr. unfold set.
      by rewrite !bool_decide_false, Hold, Hk by done. }
    change (dict_keys ((k, v) :: items)) with (k :: dict_keys items).
    rewrite for_in_cons, Hstep, bind_inr.
    rewrite (IH _ (dict_set k v old)).
    + unfold put_section. cbn. by rewrite dict_set_set.
    + cbn. by rewrite dict_get_set, decide_True.
    + intros k' v' Hin. apply Hitems. by apply list_elem_of_further.
Qed.

Lemma get_chain c section d k v :
  well_formed c → dict_get section (_sections c) = Some d →
  (k, v) ∈ chain d (_defaults c) →
  get optionxform c section k = inr v ∧ optionxform k = k.
Proof.
  intros (Hsec & Hdefs & Hxdefs & Hitems & _) Hd Hin.
  apply dict_get_Some in Hd as Hd'.
  eapply Forall_forall in Hitems as [Hnd Hxd]; [|exact Hd']. cbn in Hnd, Hxd.
  assert (optionxform k = k) as Hk.
  { apply (list_elem_of_fmap_2 fst) in Hin. fold (dict_keys (chain d (_defaults c))) in Hin.
    rewrite dict_keys_chain in Hin.
    apply elem_of_app in Hin as [Hin|[_ Hin]%list_elem_of_filter].
    - by eapply Forall_forall in Hxd.
    - by eapply Forall_forall in Hxdefs. }
  split; [|done].
  apply dict_get_elem_of in Hin; [|by apply NoDup_chain].
  rewrite dict_get_chain in Hin.
  unfold get, _unify_values. rewrite Hd. cbn. rewrite Hk.
  destruct (dict_get k d); [by injection Hin as ->|]. by rewrite Hin.
Qed.

(** The loop over the sections of one parser. *)
Lemma copy_section c result section :
  well_formed c → section ∈ sections c →
  (result' ← match add_section result section with
             | inl DuplicateSectionError => inr result
             | added => added
             end;
   opts ← options c section;
   for_in opts (λ result option,
     value ← get optionxform c section option;
     set optionxform result section option value) result')
  = inr (merge_section c result section).
Proof.
  intros Hwf Hsec. pose proof Hwf as (_ & Hdefs & _ & _ & Hdef & Hempty).
  assert (section ≠ default_section) as Hne by by intros ->.
  assert (section ≠ "") as Hne' by by intros ->.
  destruct (dict_get section (_sections c)) as [d|] eqn:Hd;
    [|by apply dict_get_None in Hd].
  unfold merge_section, options. rewrite Hd.
  rewrite dict_keys_update_chain by done.
  unfold add_section. rewrite decide_False by done.
  destruct (decide (section ∈ dict_keys (_sections result))) as [Hin|Hin]; cbn.
  - destruct (dict_get section (_sections result)) as [old|] eqn:Hold;
      [|by apply dict_get_None in Hold].
    apply copy_options; [done..|]. intros k v. by apply get_chain.
  - assert (dict_get section (_sections result) = None) as ->
      by by apply dict_get_None.
    erewrite copy_options; [|done|done| |intros k v; by apply get_chain].
    + unfold put_section. cbn. by rewrite dict_set_set.
    + cbn. by rewrite dict_get_set, decide_True.
Qed.

(** On well-formed parsers [_combine_configs] raises nothing and returns
    the fold of the merges. *)
Lemma combine_run configs :
  Forall well_formed configs →
  _combine_configs optionxform configs
  = inr (foldl merge_config __init__ configs).
Proof.
  intros Hwf. unfold _combine_configs. apply for_in_pure.
  intros result c Hc. eapply Forall_forall in Hwf; [|exact Hc].
  unfold merge_config. apply for_in_pure.
  intros result' section Hsec. by apply copy_section.
Qed.

Lemma merge_section_defaults c result section :
  _defaults (merge_section c result section) = _defaults result.
Proof. unfold merge_section. by destruct (dict_get section (_sections c)). Qed.

Lemma merge_config_defaults result c :
  _defaults (merge_config result c) = _defaults result.
Proof.
  unfold merge_config. generalize (sections c). intros secs. revert result.
  induction secs as [|s secs IH]; intros result; [done|].
  cbn [foldl]. by rewrite IH, merge_section_defaults.
Qed.

Lemma merged_defaults configs :
  _defaults (foldl merge_config __init__ configs) = [].
Proof.
  induction configs as [|c configs IH] using rev_ind; [done|].
  by rewrite foldl_snoc, merge_config_defaults.
Qed.

(** The items under [section] once the sections [secs] of [c] are merged. *)
Lemma merge_sections_get c result secs section :
  NoDup secs →
  dict_get section (_sections (foldl (merge_section c) result secs))
  = match dict_get section (_sections c) with
    | Some d =>
        if decide (section ∈ secs)
        then Some (dict_update
                     (default [] (dict_get section (_sections result)))
                     (chain d (_defaults c)))
        else dict_get section (_sections result)
    | None => dict_get section (_sections result)
    end.
Proof.
  revert result. induction secs as [|s secs IH]; intros result.
  { intros _. cbn. by destruct (dict_get section (_sections c)). }
  intros [Hs Hnd]%NoDup_cons. cbn [foldl]. rewrite IH by done.
  assert (section ≠ s →
          dict_get section (_sections (merge_section c result s))
          = dict_get section (_sections result)) as Hother.
  { intros Hne. unfold merge_section.
    destruct (dict_get s (_sections c)); [|done]. cbn.
    by rewrite dict_get_set, decide_False. }
  destruct (dict_get section (_sections c)) as [d|] eqn:Hd.
  - destruct (decide (section ∈ secs)) as [Hin|Hin].
    + rewrite decide_True by by apply list_elem_of_further.
      rewrite Hother; [done|]. by intros ->.
    + destruct (decide (section = s)) as [->|Hne].
      * rewrite decide_True by apply list_elem_of_here.
        unfold merge_section. rewrite Hd. cbn.
        by rewrite dict_get_set, decide_True.
      * rewrite decide_False by by apply not_elem_of_cons.
        by apply Hother.
  - destruct (decide (section = s)) as [->|Hne]; [|by apply Hother].
    unfold merge_section. by rewrite Hd.
Qed.

Lemma merge_sections_keys c result secs :
  NoDup secs → (∀ s, s ∈ secs → s ∈ sections c) →
  dict_keys (_sections (foldl (merge_section c) result secs))
  = dict_keys (_sections result)
    ++ filter (λ s, s ∉ dict_keys (_sections result)) secs.
Proof.
  revert result. induction secs as [|s secs IH]; intros result.
  { intros _ _. cbn. by rewrite app_nil_r. }
  intros [Hs Hnd]%NoDup_cons Hsub. cbn [foldl].
  assert (∃ items, merge_section c result s = put_section s items result)
    as [items ->].
  { unfold merge_section. destruct (dict_get s (_sections c)) eqn:E;
      [by eexists|].
    apply dict_get_None in E. destruct E. apply Hsub, list_elem_of_here. }
  rewrite IH; [|done|intros s' Hs'; by apply Hsub, list_elem_of_further].
  cbn [put_section _sections]. rewrite dict_keys_set.
  destruct (decide (s ∈ dict_keys (_sections result))) as [Hin|Hin].
  - by rewrite (filter_cons_False _ s) by tauto.
  - rewrite (filter_cons_True _ s) by done. rewrite <- app_assoc. cbn.
    do 2 f_equal. apply filter_agree. intros s' Hs'.
    rewrite not_elem_of_app, not_elem_of_cons. split; [tauto|].
    intros Hr. split; [done|]. split; [|apply not_elem_of_nil].
    intros ->. by apply Hs.
Qed.

Lemma read_section c section name :
  section ≠ default_section →
  read c section name
  = (d ← dict_get section (_sections c);
     dict_get (optionxform name) (chain d (_defaults c))).
Proof.
  intros Hne. unfold read, get, _unify_values.
  destruct (dict_get section (_sections c)) as [d|]; cbn.
  - rewrite dict_get_chain.
    destruct (dict_get (optionxform name) d); [done|].
    by destruct (dict_get (optionxform name) (_defaults c)).
  - by rewrite decide_False.
Qed.

(** X14.  On parsers as the library builds them, [_combine_configs] raises
    nothing; its result has no defaults: those of the sources are copied
    into the sections and not kept as defaults. *)
Theorem combine_configs_returns configs :
  Forall well_formed configs →
  ∃ result, _combine_configs optionxform configs = inr result ∧
            _defaults result = [].
Proof.
  intros Hwf. eexists. split; [by apply combine_run|apply merged_defaults].
Qed.

(** X15.  Later configs overwrite earlier ones: what one more config gives for an
    option is what the merged parser gives, and where it gives nothing the
    merge of the configs before it is read. *)
Theorem combine_configs_later_wins configs c result :
  Forall well_formed configs → well_formed c →
  _combine_configs optionxform configs = inr result →
  ∃ result', _combine_configs optionxform (configs ++ [c]) = inr result' ∧
    ∀ section name, section ≠ default_section →
      read result' section name
      = match read c section name with
        | Some v => Some v
        | None => read result section name
        end.
Proof.
  intros Hwf Hc. rewrite combine_run by done. intros [= <-].
  eexists. split.
  { apply combine_run. apply Forall_app. split; [done|by apply Forall_singleton]. }
  intros section name Hne. rewrite foldl_snoc.
  set (result := foldl merge_config __init__ configs).
  assert (_defaults result = []) as Hnodef by apply merged_defaults.
  pose proof Hc as (Hsecs & Hdefs & _ & Hitems & _).
  rewrite !read_section by done.
  rewrite merge_config_defaults, Hnodef.
  unfold merge_config. rewrite merge_sections_get by done.
  fold (sections c).
  destruct (dict_get section (_sections c)) as [d|] eqn:Hd; [|done].
  rewrite decide_True by (apply dict_get_Some, (list_elem_of_fmap_2 fst) in Hd; done).
  cbn [mbind option_bind].
  assert (∀ d' : pydict value, chain d' [] = d') as Hchain
    by (intros d'; unfold chain; apply app_nil_r).
  apply dict_get_Some in Hd as Hd'.
  eapply Forall_forall in Hitems as [Hnd _]; [|exact Hd']. cbn in Hnd.
  rewrite Hchain, dict_get_update by by apply NoDup_chain.
  destruct (dict_get (optionxform name) (chain d (_defaults c))); [done|].
  destruct (dict_get section (_sections result)); cbn; [|done].
  by rewrite Hchain.
Qed.

(** X16.  The sections of the merge come in the order of their first appearance:
    one more config appends those of its sections that are new. *)
Theorem combine_configs_sections configs c result :
  Forall well_formed configs → well_formed c →
  _combine_configs optionxform configs = inr result →
  ∃ result', _combine_configs optionxform (configs ++ [c]) = inr result' ∧
    sections result'
    = sections result ++ filter (λ s, s ∉ sections result) (sections c).
Proof.
  intros Hwf Hc. rewrite combine_run by done. intros [= <-].
  eexists. split.
  { apply combine_run. apply Forall_app. split; [done|by apply Forall_singleton]. }
  rewrite foldl_snoc. unfold sections at 1, merge_config.
  apply merge_sections_keys; [apply Hc|done].
Qed.

(** X17.  Merging a single config that has no defaults gives that config back. *)
Theorem combine_configs_single c :
  well_formed c → _defaults c = [] →
  _combine_configs optionxform [c] = inr c.
Proof.
  intros Hc Hnodef. rewrite combine_run by by apply Forall_singleton.
  f_equal. cbn [foldl].
  pose proof Hc as (Hsecs & _ & _ & Hitems & _).
  assert (_sections (merge_config __init__ c) = _sections c) as Heq.
  { apply dict_ext.
    - unfold merge_config. rewrite merge_sections_keys by done. cbn.
      by apply NoDup_filter.
    - unfold merge_config. rewrite merge_sections_keys by done. cbn.
      apply filter_all, Forall_forall. intros s _. apply not_elem_of_nil.
    - intros section. unfold merge_config.
      rewrite merge_sections_get by done. fold (sections c).
      destruct (dict_get section (_sections c)) as [d|] eqn:Hd; [|done].
      rewrite decide_True
        by (apply dict_get_Some, (list_elem_of_fmap_2 fst) in Hd; done).
      cbn. rewrite Hnodef. unfold chain. cbn. rewrite app_nil_r.
      apply dict_get_Some in Hd.
      eapply Forall_forall in Hitems as [Hnd _]; [|exact Hd]. cbn in Hnd.
      by rewrite (dict_update_fresh []). }
  pose proof (merge_config_defaults __init__ c) as Hd. cbn in Hd.
  destruct (merge_config __init__ c) as [defs secs], c as [cdefs csecs].
  cbn in *. by subst.
Qed.

End Merge.

(** ** The configuration of the bridge *)

(** [str.lower] on ASCII names, the [optionxform] of a parser that was not
    given another. *)
Definition lower_ascii (a : Ascii.ascii) : Ascii.ascii :=
  let n := Ascii.nat_of_ascii a in
  if (65 <=? n)%nat && (n <=? 90)%nat then Ascii.ascii_of_nat (n + 32) else a.

Fixpoint lower (s : string) : string :=
  match s with
  | EmptyString => EmptyString
  | String a s' => String (lower_ascii a) (lower s')
  end.

(** What [configure] holds after the listeners filled in their parts: the
    plain options, and the secrets kept apart. *)
Definition plain_config : configparser.RawConfigParser :=
  configparser.mkParser []
    [("redmine", [("server_url", Some "http://redmine.example.org/");
                  ("api_key", Some "");
                  ("auto_start", Some "y")])].

Definition sensitive_config : configparser.RawConfigParser :=
  configparser.mkParser []
    [("redmine", [("api_key", Some "0b1c2d3e")]);
     ("jira", [("password", Some "hunter2")])].

Definition with_defaults : configparser.RawConfigParser :=
  configparser.mkParser [("verify_ssl", Some "y")]
    [("redmine", [("version", Some "2.5.1")])].

Example combine_plain_sensitive :
  _combine_configs lower [plain_config; sensitive_config]
  = inr (configparser.mkParser []
           [("redmine", [("server_url", Some "http://redmine.example.org/");
                         ("api_key", Some "0b1c2d3e");
                         ("auto_start", Some "y")]);
            ("jira", [("password", Some "hunter2")])]).
Proof. reflexivity. Qed.

(** Defaults of a source end up in each of its sections. *)
Example combine_with_defaults :
  _combine_configs lower [plain_config; with_defaults]
  = inr (configparser.mkParser []
           [("redmine", [("server_url", Some "http://redmine.example.org/");
                         ("api_key", Some "");
                         ("auto_start", Some "y");
                         ("version", Some "2.5.1");
                         ("verify_ssl", Some "y")])]).
Proof. reflexivity. Qed.

(** An option name that [optionxform] would change cannot be read back, and
    the merge raises. *)
Example combine_unnormalised :
  _combine_configs lower
    [configparser.mkParser [] [("redmine", [("API_Key", Some "k")])]]
  = inl configparser.NoOptionError.
Proof. reflexivity. Qed.

Lemma combine_configs_returns_witness :
  ∃ result,
    _combine_configs lower [plain_config; with_defaults; sensitive_config]
    = inr result ∧
    configparser._defaults result = [].
Proof.
  apply (combine_configs_returns lower
           [plain_config; with_defaults; sensitive_config]).
  apply (bool_decide_unpack _). vm_compute. exact I.
Defined.

Lemma combine_configs_later_wins_witness :
  ∃ result',
    _combine_configs lower ([plain_config] ++ [sensitive_config]) = inr result' ∧
    ∀ section name, section ≠ configparser.default_section →
      read lower result' section name
      = match read lower sensitive_config section name with
        | Some v => Some v
        | None => read lower plain_config section name
        end.
Proof.
  apply (combine_configs_later_wins lower [plain_config] sensitive_config
           plain_config).
  - apply (bool_decide_unpack _). vm_compute. exact I.
  - apply (bool_decide_unpack _). vm_compute. exact I.
  - reflexivity.
Defined.

Lemma combine_configs_sections_witness :
  ∃ result',
    _combine_configs lower ([plain_config] ++ [sensitive_config]) = inr result' ∧
    configparser.sections result'
    = configparser.sections plain_config
      ++ filter (λ s, s ∉ configparser.sections plain_config)
                (configparser.sections sensitive_config).
Proof.
  apply (combine_configs_sections lower [plain_config] sensitive_config
           plain_config).
  - apply (bool_decide_unpack _). vm_compute. exact I.
  - apply (bool_decide_unpack _). vm_compute. exact I.
  - reflexivity.
Defined.

Lemma combine_configs_single_witness :
  _combine_configs lower [sensitive_config] = inr sensitive_config.
Proof.
  apply (combine_configs_single lower sensitive_config).
  - apply (bool_decide_unpack _). vm_compute. exact I.
  - reflexivity.
Defined.

(** * The Redmine listener: issue numbers in activity titles

    [RedmineHamsterListener.__get_issue_id_from_fact] of
    [listeners/redmine.py] scans the activity of a fact with the regular
    expression [([0-9]+)\ ] and asks Redmine, candidate after candidate,
    whether such an issue exists. *)

(** [[0-9]] *)
Definition is_digit (a : Ascii.ascii) : bool :=
  let n := Ascii.nat_of_ascii a in (48 <=? n)%nat && (n <=? 57)%nat.

(** The space of [\ ]. *)
Definition space : Ascii.ascii := Ascii.ascii_of_nat 32.

(** The longest run of digits that opens [s], and what follows it. *)
Fixpoint digit_run (s : string) : string * string :=
  match s with
  | String a s' =>
      if is_digit a
      then let '(run, rest) := digit_run s' in (String a run, rest)
      else (EmptyString, s)
  | EmptyString => (EmptyString, EmptyString)
  end.

(** [issue_from_title] tried at the start of [s]: the group it captures and
    what is left after the match.  [[0-9]+] takes the whole run of digits;
    giving digits back cannot help, since the character after a shorter run
    is a digit and not the space. *)
Definition match_here (s : string) : option (string * string) :=
  match digit_run s with
  | (String a run, String b rest) =>
      if Ascii.eqb b space then Some (String a run, rest) else None
  | _ => None
  end.

(** The scan of [findall]: the leftmost match, then on from where it ended;
    one character further where there is no match.  [fuel] bounds the number
    of steps. *)
Fixpoint findall_from (fuel : nat) (s : string) : list string :=
  match fuel with
  | O => []
  | S fuel' =>
      match s with
      | EmptyString => []
      | String _ s' =>
          match match_here s with
          | Some (group, rest) => group :: findall_from fuel' rest
          | None => findall_from fuel' s'
          end
      end
  end.

(** [issue_from_title.findall(s)]; every step consumes a character, so the
    length of [s] is fuel enough. *)
Definition findall (s : string) : list string :=
  findall_from (String.length s) s.

Section Redmine.

Context {Web : Type}.

(** [self.__exists_issue(issue_id)]: a request to the Redmine server, which
    answers, or raises when the server cannot be reached. *)
Variable __exists_issue : string → Web → result bool * Web.

(** [for possible_issue in candidates: if exists: return possible_issue],
    and [None] after the loop. *)
Fixpoint first_existing (candidates : list string) (web : Web)
  : result (option string) * Web :=
  match candidates with
  | [] => (Return None, web)
  | possible_issue :: candidates' =>
      match __exists_issue possible_issue web with
      | (Return true, web') => (Return (Some possible_issue), web')
      | (Return false, web') => first_existing candidates' web'
      | (Raise, web') => (Raise, web')
      end
  end.

Definition __get_issue_id_from_fact (fact : Fact) (web : Web)
  : result (option string) * Web :=
  first_existing (findall (activity fact)) web.

End Redmine.


(** ** The scan *)

Fixpoint all_digits (s : string) : bool :=
  match s with
  | EmptyString => true
  | String a s' => is_digit a && all_digits s'
  end.

Fixpoint has_space (s : string) : bool :=
  match s with
  | EmptyString => false
  | String a s' => Ascii.eqb a space || has_space s'
  end.

(** [s] does not go on with a digit or with the space. *)
Definition breaks_off (s : string) : Prop :=
  match s with
  | EmptyString => True
  | String a _ => is_digit a = false ∧ a ≠ space
  end.

Lemma append_nil (s : string) : String.append EmptyString s = s.
Proof. reflexivity. Qed.

Lemma append_cons a (s1 s2 : string) :
  String.append (String a s1) s2 = String a (String.append s1 s2).
Proof. reflexivity. Qed.

Lemma space_not_digit : is_digit space = false.
Proof. reflexivity. Qed.

Lemma digit_run_spec s :
  let '(run, rest) := digit_run s in
  s = String.append run rest ∧ all_digits run = true ∧
  match rest with String a _ => is_digit a = false | EmptyString => True end.
Proof.
  induction s as [|a s IH]; cbn; [done|].
  destruct (is_digit a) eqn:Ha; [|done].
  destruct (digit_run s) as [run rest]. destruct IH as (-> & Hrun & Hrest).
  rewrite append_cons. cbn. by rewrite Ha, Hrun.
Qed.

Lemma match_here_Some s group rest :
  match_here s = Some (group, rest) →
  s = String.append group (String space rest) ∧
  group ≠ EmptyString ∧ all_digits group = true.
Proof.
  unfold match_here. pose proof (digit_run_spec s) as Hrun.
  destruct (digit_run s) as [[|a run] [|b rest']]; try done.
  destruct (Ascii.eqb b space) eqn:Hb; [|done].
  apply Ascii.eqb_eq in Hb as ->. intros [= <- <-].
  by destruct Hrun as (-> & Hdigits & _).
Qed.

Lemma length_append (s1 s2 : string) :
  String.length (String.append s1 s2)
  = (String.length s1 + String.length s2)%nat.
Proof.
  induction s1 as [|a s1 IH]; [done|].
  rewrite append_cons. cbn [String.length]. by rewrite IH.
Qed.

Lemma match_here_shorter s group rest :
  match_here s = Some (group, rest) →
  (String.length rest < String.length s)%nat.
Proof.
  intros (-> & _ & _)%match_here_Some. rewrite length_append. cbn. lia.
Qed.

Lemma findall_from_enough fuel s :
  (String.length s ≤ fuel)%nat → findall_from fuel s = findall s.
Proof.
  unfold findall. remember (String.length s) as n eqn:Hn.
  revert fuel s Hn.
  induction (lt_wf n) as [n _ IH]. intros fuel s -> Hfuel.
  destruct s as [|a s]; [by destruct fuel|].
  destruct fuel as [|fuel]; [cbn in Hfuel; lia|].
  cbn [String.length findall_from].
  destruct (match_here (String a s)) as [[group rest]|] eqn:Hm.
  - apply match_here_shorter in Hm as Hlen. cbn in Hlen. f_equal.
    rewrite (IH (String.length rest)) by (cbn in *; lia).
    symmetry. apply (IH (String.length rest)); cbn in *; lia.
  - rewrite (IH (String.length s)) by (cbn in *; lia). done.
Qed.

Lemma findall_step a s :
  findall (String a s)
  = match match_here (String a s) with
    | Some (group, rest) => group :: findall rest
    | None => findall s
    end.
Proof.
  unfold findall at 1. cbn [String.length findall_from].
  destruct (match_here (String a s)) as [[group rest]|] eqn:Hm.
  - apply match_here_shorter in Hm. cbn in Hm.
    by rewrite findall_from_enough by lia.
  - by rewrite findall_from_enough.
Qed.

Lemma digit_run_append run s :
  all_digits run = true → breaks_off s ∨ (∃ s', s = String space s') →
  digit_run (String.append run s) = (run, s).
Proof.
  intros Hrun Hs. induction run as [|a run IH].
  - rewrite append_nil. destruct s as [|b s]; [done|]. cbn [digit_run].
    assert (is_digit b = false) as ->; [|done].
    destruct Hs as [[Hb _]|[s' [= -> _]]]; [done|apply space_not_digit].
  - cbn in Hrun. apply andb_prop in Hrun as [Ha Hrun].
    rewrite append_cons. cbn [digit_run]. by rewrite Ha, IH.
Qed.

Lemma candidates_numbers_lemma s group :
  group ∈ findall s →
  group ≠ EmptyString ∧ all_digits group = true ∧
  ∃ before after,
    s = String.append before (String.append group (String space after)).
Proof.
  remember (String.length s) as n eqn:Hn. revert s Hn.
  induction (lt_wf n) as [n _ IH]. intros s ->.
  destruct s as [|a s]; [by intros ?%elem_of_nil|].
  rewrite findall_step.
  destruct (match_here (String a s)) as [[g rest]|] eqn:Hm.
  - apply match_here_shorter in Hm as Hlen.
    apply match_here_Some in Hm as (Hs & Hg & Hdigits).
    intros [->|Hin]%elem_of_cons.
    + split; [done|]. split; [done|]. by exists EmptyString, rest.
    + destruct (IH (String.length rest) Hlen rest eq_refl Hin)
        as (? & ? & before & after & ->).
      split; [done|]. split; [done|].
      exists (String.append g (String space before)), after.
      rewrite Hs. clear. induction g as [|b g IHg]; [done|].
      by rewrite !append_cons, IHg.
  - intros Hin.
    destruct (IH (String.length s) (Nat.lt_succ_diag_r _) s eq_refl Hin)
      as (? & ? & before & after & ->).
    split; [done|]. split; [done|]. by exists (String a before), after.
Qed.

(** X18.  The candidates that [issue_from_title] finds are numbers that stand in
    the title right before a space. *)
Theorem candidates_are_numbers_before_space s group :
  group ∈ findall s →
  group ≠ EmptyString ∧ all_digits group = true ∧
  ∃ before after,
    s = String.append before (String.append group (String space after)).
Proof. apply candidates_numbers_lemma. Qed.

(** X19.  A number right before a space is found, and the scan goes on after
    that space. *)
Theorem findall_number_before_space group s :
  group ≠ EmptyString → all_digits group = true →
  findall (String.append group (String space s)) = group :: findall s.
Proof.
  intros Hg Hdigits. destruct group as [|a group]; [done|].
  rewrite append_cons, findall_step, <- append_cons.
  unfold match_here. rewrite digit_run_append by (by eauto).
  assert (Ascii.eqb space space = true) as -> by reflexivity. done.
Qed.

(** X20.  A number that is not followed by a space is passed over, be it at the
    end of the title or glued to other text. *)
Theorem findall_number_without_space group s :
  all_digits group = true → breaks_off s →
  findall (String.append group s) = findall s.
Proof.
  intros Hdigits Hs. induction group as [|a group IH]; [done|].
  cbn in Hdigits. apply andb_prop in Hdigits as [Ha Hdigits].
  rewrite append_cons, findall_step, IH, <- append_cons by done.
  unfold match_here.
  rewrite digit_run_append by (cbn; rewrite ?Ha, ?Hdigits; auto).
  destruct s as [|b s]; [done|]. destruct Hs as [_ Hb].
  destruct (Ascii.eqb b space) eqn:E; [|done].
  by apply Ascii.eqb_eq in E.
Qed.

Lemma has_space_append s1 s2 :
  has_space (String.append s1 s2) = has_space s1 || has_space s2.
Proof.
  induction s1 as [|a s1 IH]; [done|].
  rewrite append_cons. cbn [has_space]. by rewrite IH, orb_assoc.
Qed.

Lemma findall_no_space s : has_space s = false → findall s = [].
Proof.
  intros Hs. destruct (findall s) as [|group l] eqn:E; [done|].
  destruct (candidates_numbers_lemma s group) as (_ & _ & before & after & ->).
  { rewrite E. apply list_elem_of_here. }
  rewrite !has_space_append in Hs. cbn in Hs.
  assert (Ascii.eqb space space = true) as Heq by reflexivity.
  rewrite Heq in Hs. cbn in Hs. by rewrite !orb_true_r in Hs.
Qed.

Section RedmineProofs.

Context {Web : Type}.
Variable __exists_issue : string → Web → result bool * Web.

Lemma first_existing_found candidates web issue web' :
  first_existing __exists_issue candidates web = (Return (Some issue), web') →
  issue ∈ candidates.
Proof.
  revert web. induction candidates as [|c candidates IH]; intros web; cbn.
  - intros [= ]. 
  - destruct (__exists_issue c web) as [[[]|] web1].
    + intros [= <- _]. apply list_elem_of_here.
    + intros Hrest. by apply list_elem_of_further, (IH web1).
    + intros [= ].
Qed.

(** X21.  The issue that [__get_issue_id_from_fact] returns is a number that
    stands in the activity of the fact right before a space. *)
Theorem issue_id_is_number_of_title fact web issue web' :
  __get_issue_id_from_fact __exists_issue fact web
    = (Return (Some issue), web') →
  issue ≠ EmptyString ∧ all_digits issue = true ∧
  ∃ before after,
    activity fact
    = String.append before (String.append issue (String space after)).
Proof.
  intros Hfound%first_existing_found.
  by apply candidates_numbers_lemma.
Qed.

(** X22.  For an activity without a space, where a number could only stand at
    the end, no issue is found and Redmine is not even asked. *)
Theorem title_without_space_has_no_issue fact web :
  has_space (activity fact) = false →
  __get_issue_id_from_fact __exists_issue fact web = (Return None, web).
Proof.
  intros Hs. unfold __get_issue_id_from_fact. by rewrite findall_no_space.
Qed.

End RedmineProofs.

(** ** Titles with and without an issue *)

(** A Redmine that knows issue 4512 only; the web counts the requests. *)
Definition only_4512 (issue_id : string) (requests : nat)
  : result bool * nat :=
  (Return (String.eqb issue_id "4512"), S requests).

Definition fixing_login : Fact :=
  mkFact 4 "17 4512 fix login" "work" "" [] 5200 None.

Example issue_of_fixing_login :
  __get_issue_id_from_fact only_4512 fixing_login 0%nat
  = (Return (Some "4512"), 2%nat).
Proof. reflexivity. Qed.

Example number_at_the_end : findall "fix login 4512" = [].
Proof. reflexivity. Qed.

Lemma candidates_are_numbers_before_space_witness :
  "4512" ≠ EmptyString ∧ all_digits "4512" = true ∧
  ∃ before after,
    "17 4512 fix login"
    = String.append before (String.append "4512" (String space after)).
Proof.
  apply (candidates_are_numbers_before_space "17 4512 fix login" "4512").
  vm_compute. apply list_elem_of_further, list_elem_of_here.
Defined.

Lemma findall_number_before_space_witness :
  findall (String.append "4512" (String space "fix login 17"))
  = "4512" :: findall "fix login 17".
Proof.
  apply (findall_number_before_space "4512" "fix login 17").
  - discriminate.
  - reflexivity.
Defined.

Lemma findall_number_without_space_witness :
  findall (String.append "4512" ": fix login") = findall ": fix login".
Proof.
  apply (findall_number_without_space "4512" ": fix login").
  - reflexivity.
  - split; [reflexivity|discriminate].
Defined.

Lemma issue_id_is_number_of_title_witness :
  "4512" ≠ EmptyString ∧ all_digits "4512" = true ∧
  ∃ before after,
    activity fixing_login
    = String.append before (String.append "4512" (String space after)).
Proof.
  apply (issue_id_is_number_of_title only_4512 fixing_login 0%nat "4512" 2%nat).
  reflexivity.
Defined.

Lemma title_without_space_has_no_issue_witness :
  __get_issue_id_from_fact only_4512 coding 7%nat = (Return None, 7%nat).
Proof.
  apply (title_without_space_has_no_issue only_4512 coding 7%nat).
  reflexivity.
Defined.
